(** * Bond analytics and portfolio risk metrics (Bond.py)

    A shallow embedding of the numerical core of [Bond.py]: the grid
    search for the yields of a bond, its durations, and the portfolio
    volatility, Sharpe ratio, Expected Shortfall and historical VaR.

    Numbers.  Python floats and numpy float64 values are idealised as exact
    rationals ([Q], equality [==]); rounding, overflow and signed zeros are
    outside the model.  What the model keeps of the two arithmetics is how
    they treat a zero divisor:
    - a division between plain Python numbers raises [ZeroDivisionError]
      ([py_div]);
    - a division with a numpy operand never raises and yields [inf], [-inf]
      or [nan] ([np_div], into [np_float]).
    Calls to [print] only write to the console and are left out. *)

From Stdlib Require Import ZArith QArith Qabs Qminmax Qround Qpower Qfield.
From Stdlib Require Import List Lia Lqa Bool Morphisms Setoid.
Import ListNotations.

Local Open Scope Q_scope.

(** ** Python exceptions and results *)

Inductive exn : Type :=
| ZeroDivisionError
| UnboundLocalError.

Inductive result (A : Type) : Type :=
| Ok (a : A)
| Raise (e : exn).

Arguments Ok {A} a.
Arguments Raise {A} e.

Definition bind {A B : Type} (r : result A) (k : A -> result B) : result B :=
  match r with
  | Ok a => k a
  | Raise e => Raise e
  end.

Notation "x <- r ;; k" := (bind r (fun x => k))
  (at level 61, r at next level, right associativity).

(** ** Python and numpy primitives *)

(** [a > b] on numbers. *)
Definition Qgtb (a b : Q) : bool := negb (Qle_bool a b).

(** [a < b] on numbers. *)
Definition Qltb (a b : Q) : bool := negb (Qle_bool b a).

(** [x / y] between Python numbers. *)
Definition py_div (x y : Q) : result Q :=
  if Qeq_bool y 0 then Raise ZeroDivisionError else Ok (x / y).

(** [int(x)]: truncation toward zero. *)
Definition py_int (x : Q) : Z := Z.quot (Qnum x) (Zpos (Qden x)).

(** [min(a, b)]: the first argument unless the second is strictly smaller. *)
Definition py_min (a b : Q) : Q := if Qltb b a then b else a.

(** [range(lo, hi)]. *)
Definition py_range (lo hi : Z) : list Z :=
  map (fun j => (lo + Z.of_nat j)%Z) (seq 0 (Z.to_nat (hi - lo))).

(** [numpy.arange(start, stop, step)]: [ceil((stop - start) / step)] values,
    the [i]-th being [start + i * step]. *)
Definition arange (start stop step : Q) : list Q :=
  map (fun i => start + inject_Z (Z.of_nat i) * step)
      (seq 0 (Z.to_nat (Qceiling ((stop - start) / step)))).

(** A numpy float64 result: a finite number, an infinity or not-a-number. *)
Inductive np_float : Type :=
| Finite (q : Q)
| PosInf
| NegInf
| NaN.

(** [x / y] with a numpy operand; a zero divisor stands for [+0.0]. *)
Definition np_div (x y : Q) : np_float :=
  if Qeq_bool y 0 then
    if Qeq_bool x 0 then NaN
    else if Qle_bool x 0 then NegInf else PosInf
  else Finite (x / y).

(** [x - m] where [m] is finite. *)
Definition np_sub (x : np_float) (m : Q) : np_float :=
  match x with
  | Finite q => Finite (q - m)
  | other => other
  end.

Definition is_finite (x : np_float) : bool :=
  match x with
  | Finite _ => true
  | _ => false
  end.

(** ** The bond *)

Record Bond : Type := mkBond {
  years_to_maturity : Q;
  n : Z;
  t : Q;
  price : Q;
  coupon : Q;
  call_price : Q;
  face_value : Q;
  num_coupon_periods : Z
}.

(** [Bond.__init__]. *)
Definition Bond_init (price coupon call_price face_value t years_to_maturity : Q)
    (num_coupon_periods : Z) : Bond :=
  {| years_to_maturity := years_to_maturity;
     n := py_int (years_to_maturity * inject_Z num_coupon_periods);
     t := t;
     price := price;
     coupon := coupon;
     call_price := call_price;
     face_value := face_value;
     num_coupon_periods := num_coupon_periods |}.

(** The data model's bond: positive price, face value and call price, a
    coupon rate that is a percentage of the face value, a call date before
    maturity, a positive number of coupons per year, and at least one
    coupon period left. *)
Record valid_bond (b : Bond) : Prop := {
  vb_price : 0 < price b;
  vb_face : 0 < face_value b;
  vb_call : 0 < call_price b;
  vb_coupon : 0 <= coupon b;
  vb_call_date : 0 <= t b /\ t b <= years_to_maturity b;
  vb_periods : (0 < num_coupon_periods b)%Z;
  vb_remaining : (1 <= n b)%Z
}.

Section BondAnalytics.

(** [x ** y] of numpy for a real exponent [y], used by [f_ytc] with the
    exponent [2 * t]: the years to the call date need not be whole. *)
Variable np_power : Q -> Q -> Q.

(** The residual of the pricing formula at one candidate yield, given the
    periodic coupon [C].  The arithmetic is numpy's, element by element; its
    divisors, [ytm] and a power of [1 + ytm], are not zero at a candidate of
    the grid. *)
Definition ytm_formula (b : Bond) (C ytm : Q) : Q :=
  ((C * (1 - (1 / ((1 + ytm) ^ n b)))) / ytm)
  + (face_value b / ((1 + ytm) ^ n b)) - price b.

(** [f_ytm], applied to the array of candidates: the coupon [C] is computed
    once with Python numbers, the rest is element-wise numpy arithmetic. *)
Definition f_ytm (b : Bond) (ytm : list Q) : result (list Q) :=
  C <- py_div (coupon b * (1 # 100) * face_value b)
              (inject_Z (num_coupon_periods b)) ;;
  Ok (map (ytm_formula b C) ytm).

Definition ytc_formula (b : Bond) (ytc : Q) : Q :=
  let C := coupon b * (1 # 100) * face_value b in
  (C / 2) * ((1 - np_power (1 + ytc / 2) (- (2 * t b))) / (ytc / 2))
  + call_price b / (np_power (1 + ytc / 2) (2 * t b)) - price b.

(** [f_ytc], applied to the array of candidates. *)
Definition f_ytc (b : Bond) (ytc : list Q) : result (list Q) :=
  Ok (map (ytc_formula b) ytc).

(** The candidate yields [arange(0.0001, 1.0, 0.0001)]. *)
Definition x1 : list Q := arange (1 # 10000) 1 (1 # 10000).

(** One iteration of the search loop; the state is
    [(initial_ytm, initial_ytc)]. *)
Definition scan_step (y1 y2 : list Q) (st : nat * nat) (i : nat) : nat * nat :=
  let '(initial_ytm, initial_ytc) := st in
  (if Qgtb (Qabs (nth initial_ytm y1 0)) (Qabs (nth i y1 0))
   then i else initial_ytm,
   if Qgtb (Qabs (nth initial_ytc y2 0)) (Qabs (nth i y2 0))
   then i else initial_ytc).

Definition calculate_yields (b : Bond) : result (Q * Q * Q) :=
  y1 <- f_ytm b x1 ;;
  y2 <- f_ytc b x1 ;;
  let '(initial_ytm, initial_ytc) :=
    fold_left (scan_step y1 y2) (seq 0 (length y1)) (0%nat, 0%nat) in
  let ytm := inject_Z (num_coupon_periods b) * nth initial_ytm x1 0 in
  let ytc := nth initial_ytc x1 0 in
  let ytw := py_min ytm ytc in
  Ok (ytm, ytc, ytw).

(** The loop of [calculate_durations] over [range(1, n + 1)]; the state is
    [pv] and the loop variable, which is unbound until the first
    iteration. *)
Fixpoint durations_loop (i c : Q) (ts : list Z) (pv : Q) (last : option Z)
    : result (Q * option Z) :=
  match ts with
  | [] => Ok (pv, last)
  | k :: ts' =>
      term <- py_div (inject_Z k * c) ((1 + i) ^ k) ;;
      durations_loop i c ts' (pv + term) (Some k)
  end.

(** The divisions of the loop, by [(1 + i) ** t], and the one by the price
    are between Python numbers.  [ytm] is a numpy value, so the last division
    is numpy's; its divisor is one plus the selected candidate of the grid. *)
Definition calculate_durations (b : Bond) (ytm : Q) : result (Q * Q) :=
  let i := coupon b * (1 # 100) in
  let c := coupon b * (1 # 100) * face_value b in
  st <- durations_loop i c (py_range 1 (n b + 1)) 0 None ;;
  let '(pv, last) := st in
  match last with
  | None => Raise UnboundLocalError
  | Some k =>
      final <- py_div (inject_Z (n b) * face_value b) ((1 + i) ^ k) ;;
      macaulay_duration <- py_div (pv + final) (price b) ;;
      let modified_duration :=
        macaulay_duration / (1 + ytm / inject_Z (num_coupon_periods b)) in
      Ok (macaulay_duration, modified_duration)
  end.

Definition calculate_bond_analytics (b : Bond) : result (Q * Q * Q * Q * Q) :=
  ys <- calculate_yields b ;;
  let '(ytm, ytc, ytw) := ys in
  ds <- calculate_durations b ytm ;;
  let '(macaulay_duration, modified_duration) := ds in
  Ok (ytm, ytc, ytw, macaulay_duration, modified_duration).

End BondAnalytics.

(** ** Vectors and matrices (numpy arrays)

    A 1-D array is a list, a 2-D array the list of its rows.  The functions
    of numpy are modelled from their documentation. *)

Fixpoint zip_with (f : Q -> Q -> Q) (u v : list Q) : list Q :=
  match u, v with
  | a :: u', b :: v' => f a b :: zip_with f u' v'
  | _, _ => []
  end.

(** [numpy.sum] of a 1-D array. *)
Definition np_sum (v : list Q) : Q := fold_right Qplus 0 v.

(** [numpy.mean] of a 1-D array. *)
Definition np_mean (v : list Q) : Q :=
  np_sum v / inject_Z (Z.of_nat (length v)).

(** [numpy.dot] of two 1-D arrays. *)
Definition dot1 (u v : list Q) : Q := np_sum (zip_with Qmult u v).

Definition vadd (u v : list Q) : list Q := zip_with Qplus u v.

Definition vscale (a : Q) (u : list Q) : list Q := map (Qmult a) u.

(** [m.shape[1]]. *)
Definition shape1 (m : list (list Q)) : nat :=
  match m with
  | [] => 0
  | row :: _ => length row
  end.

(** The linear combination [sum_i w[i] * m[i]] of rows of length [T]. *)
Fixpoint lincomb (T : nat) (w : list Q) (m : list (list Q)) : list Q :=
  match w, m with
  | a :: w', row :: m' => vadd (vscale a row) (lincomb T w' m')
  | _, _ => repeat 0 T
  end.

(** [numpy.dot(w, m)] of a 1-D array and a 2-D array: entry [j] is
    [sum_i w[i] * m[i][j]]. *)
Definition np_dot (w : list Q) (m : list (list Q)) : list Q :=
  lincomb (shape1 m) w m.

(** A row minus its mean. *)
Definition center (row : list Q) : list Q :=
  map (fun x => x - np_mean row) row.

(** [numpy.cov(m)], rows being the variables: the rows are centred and the
    products of the centred rows are scaled by [1 / (T - 1)]. *)
Definition np_cov (m : list (list Q)) : list (list Q) :=
  let X := map center m in
  let fact := inject_Z (Z.of_nat (shape1 m)) - 1 in
  map (fun xi => map (fun xj => dot1 xi xj * (1 / fact)) X) X.

(** ** The portfolio risk engine *)

Definition portfolio_returns (returns : list (list Q)) (weights : list Q)
    : list Q :=
  np_dot weights returns.

Definition portfolio_volatility (returns : list (list Q)) (weights : list Q)
    : Q :=
  let w_T := map (fun x => [x]) weights in
  let covariance := np_cov returns in
  nth 0 (np_dot (np_dot weights covariance) w_T) 0.

(** The loop of [historical_var] over [range(0, port_returns.shape[0])]. *)
Definition count_step (port_returns : list Q) (var_p : Q)
    (relevant_returns : Z) (i : nat) : Z :=
  if Qltb (nth i port_returns 0) var_p
  then (relevant_returns + 1)%Z else relevant_returns.

Definition historical_var (port_returns : list Q) (var_p : Q) : result Q :=
  let relevant_returns :=
    fold_left (count_step port_returns var_p)
              (seq 0 (length port_returns)) 0%Z in
  h_var <- py_div (inject_Z relevant_returns)
                  (inject_Z (Z.of_nat (length port_returns))) ;;
  Ok h_var.

Section RiskEngine.

(** [numpy.sqrt]. *)
Variable np_sqrt : Q -> Q.

(** Of scipy: [stats.norm.pdf], [stats.norm.ppf], [stats.norm(mu, sigma).pdf],
    [stats.t(d).pdf], [stats.t(d).ppf], and [integrate.quad(f, -inf, b)],
    which returns the integral and an error estimate. *)
Variable norm_pdf : Q -> Q.
Variable norm_ppf : Q -> Q.
Variable norm_pdf_at : Q -> Q -> Q -> Q.
Variable t_pdf : Z -> Q -> Q.
Variable t_ppf : Z -> Q -> Q.
Variable quad_from_neg_inf : (Q -> Q) -> Q -> Q * Q.

Definition sharpe_ratio (port_returns : list Q) (risk_free_rate : Q)
    (asset_returns : list (list Q)) (weights : list Q) : result np_float :=
  let portfolio_standard_deviation :=
    np_sqrt (portfolio_volatility asset_returns weights) in
  let sr :=
    np_div (np_mean port_returns - risk_free_rate)
           portfolio_standard_deviation in
  Ok sr.

(** The 9-tuple of [risk_metrics]. *)
Record risk_tuple : Type := mkRisk {
  rm_var : Q;
  rm_sigma : Q;
  rm_mu : Q;
  rm_a_var : Q;
  rm_a_var_error : Q;
  rm_t_dist_a_var : Q;
  rm_t_dist_a_var_error : Q;
  rm_es : np_float;
  rm_t_dist_es : np_float
}.

Definition risk_metrics (returns : list (list Q)) (weights : list Q)
    (var_p alpha : Q) (d : Z) : result risk_tuple :=
  let var := portfolio_volatility returns weights in
  let sigma := np_sqrt var in
  let mu := np_sum (portfolio_returns returns weights)
            / inject_Z (Z.of_nat (shape1 returns)) in
  let '(a_var, a_var_error) :=
    quad_from_neg_inf (fun y => norm_pdf_at mu sigma y) var_p in
  let '(t_dist_a_var, t_dist_a_var_error) :=
    quad_from_neg_inf (fun y => t_pdf d y) var_p in
  let es := np_sub (np_div (norm_pdf (norm_ppf alpha) * sigma) alpha) mu in
  let t_dist_es :=
    np_sub (np_div (t_pdf d (t_ppf d alpha) * sigma
                    * (inject_Z d + (t_ppf d alpha) ^ 2))
                   (alpha * (inject_Z d - 1))) mu in
  Ok (mkRisk var sigma mu a_var a_var_error t_dist_a_var t_dist_a_var_error
             es t_dist_es).

End RiskEngine.


(** ** The remaining portfolio functions *)

(** [numpy.std] of a 1-D array, given the square root: the root of the mean
    of the squared absolute deviations from the mean (divisor [T]). *)
Definition np_std (np_sqrt : Q -> Q) (x : list Q) : Q :=
  np_sqrt (np_mean (map (fun v => Qabs (v - np_mean x) ^ 2) x)).

(** [port_returns - market_returns] is element-wise; the two series have one
    length. *)
Definition tracking_error (np_sqrt : Q -> Q)
    (port_returns market_returns : list Q) : Q :=
  np_std np_sqrt (zip_with Qminus port_returns market_returns).

(** [np_data[:, i]]. *)
Definition column (np_data : list (list Q)) (i : nat) : list Q :=
  map (fun row => nth i row 0) np_data.

(** [get_data]: the columns of the frame, appended one by one. *)
Definition get_data (data : list (list Q)) : list (list Q) :=
  let np_data := data in
  fold_left (fun array i => array ++ [column np_data i])
            (seq 0 (shape1 np_data)) [].

(** ** The moving averages

    [sma], [ema], [twap] and [vwap] are compiled by numba
    ([@jit(nopython=True)]): a division by zero raises, between floats too
    (numba's error model is Python's unless asked otherwise), [np.zeros]
    refuses a negative length, and an index outside an array is not checked.
    The window [interval] is a natural number; the price and volume series of
    one call have one length. *)

Inductive jit_exn : Type :=
| JitValueError
| JitZeroDivisionError
| JitOutOfBounds.

Inductive jit_result (A : Type) : Type :=
| Returned (a : A)
| Raised (e : jit_exn).

Arguments Returned {A} a.
Arguments Raised {A} e.

Definition jit_bind {A B : Type} (r : jit_result A) (k : A -> jit_result B)
    : jit_result B :=
  match r with
  | Returned a => k a
  | Raised e => Raised e
  end.

Notation "x <~ r ;; k" := (jit_bind r (fun x => k))
  (at level 61, r at next level, right associativity).

(** [x / y] in compiled code. *)
Definition jit_div (x y : Q) : jit_result Q :=
  if Qeq_bool y 0 then Raised JitZeroDivisionError else Returned (x / y).

(** [np.zeros(k)]. *)
Definition np_zeros (k : Z) : jit_result (list Q) :=
  if (k <? 0)%Z then Raised JitValueError
  else Returned (repeat 0 (Z.to_nat k)).

(** [s[k] = v] for an index inside the array. *)
Fixpoint set_nth (s : list Q) (k : nat) (v : Q) : list Q :=
  match s, k with
  | [], _ => []
  | _ :: s', O => v :: s'
  | a :: s', S k' => a :: set_nth s' k' v
  end.

(** The slice [l[lo:hi]] for [0 <= lo]: it stops at the end of [l]. *)
Definition py_slice (l : list Q) (lo hi : nat) : list Q :=
  firstn (hi - lo) (skipn lo l).

(** The body shared by the loops of [sma] and [twap]:
    [s[t] = np.sum(prices[t:t + interval]) / interval]. *)
Definition window_mean_step (prices : list Q) (interval : nat)
    (acc : jit_result (list Q)) (t : nat) : jit_result (list Q) :=
  s <~ acc ;;
  v <~ jit_div (np_sum (py_slice prices t (t + interval)))
               (inject_Z (Z.of_nat interval)) ;;
  Returned (set_nth s t v).

Definition sma (matrix : list Q) (interval : nat) : jit_result (list Q) :=
  s <~ np_zeros (Z.of_nat (length matrix) - Z.of_nat interval) ;;
  fold_left (window_mean_step matrix interval) (seq 0 (length s)) (Returned s).

(** One iteration of the loop of [ema]:
    [e[t] = alpha * matrix[t] + (1 - alpha) * e[t - 1]]. *)
Definition ema_step (matrix : list Q) (alpha : Q) (e : list Q) (t : nat)
    : list Q :=
  set_nth e t (alpha * nth t matrix 0 + (1 - alpha) * nth (t - 1) e 0).

(** [ema].  On an empty array [e[0] = matrix[0]] reaches outside both arrays,
    which compiled code does not check. *)
Definition ema (matrix : list Q) (alpha : Q) : jit_result (list Q) :=
  e <~ np_zeros (Z.of_nat (length matrix)) ;;
  match matrix with
  | [] => Raised JitOutOfBounds
  | first :: _ =>
      Returned (fold_left (ema_step matrix alpha)
                          (seq 1 (length matrix - 1)) (set_nth e 0 first))
  end.

Definition twap (high low open close : list Q) (interval : nat)
    : jit_result (list Q) :=
  let prices :=
    map (fun x => x / 4)
        (zip_with Qplus (zip_with Qplus (zip_with Qplus high low) open) close) in
  p <~ np_zeros (Z.of_nat (length prices) - Z.of_nat interval) ;;
  fold_left (window_mean_step prices interval) (seq 0 (length p)) (Returned p).

(** The body of the loop of [vwap]. *)
Definition vwap_step (prices volumes : list Q) (interval : nat)
    (acc : jit_result (list Q)) (t : nat) : jit_result (list Q) :=
  p <~ acc ;;
  v <~ jit_div
         (np_sum (zip_with Qmult (py_slice prices t (t + interval))
                                 (py_slice volumes t (t + interval))))
         (np_sum (py_slice volumes t (t + interval))) ;;
  Returned (set_nth p t v).

Definition vwap (high low close volumes : list Q) (interval : nat)
    : jit_result (list Q) :=
  let prices :=
    map (fun x => x / 3) (zip_with Qplus (zip_with Qplus high low) close) in
  p <~ np_zeros (Z.of_nat (length prices) - Z.of_nat interval) ;;
  fold_left (vwap_step prices volumes interval) (seq 0 (length p)) (Returned p).

(** ** Reference definitions, in the words of the specification *)

(** The candidate [c] of the grid minimises the absolute value of [f]. *)
Definition minimises (f : Q -> Q) (grid : list Q) (c : Q) : Prop :=
  In c grid /\ forall y, In y grid -> Qabs (f c) <= Qabs (f y).

(** The grid 0.0001, 0.0002, ..., 0.9999: its [k]-th value, counted from
    one, is [k / 10000]. *)
Definition is_yield_grid (g : list Q) : Prop :=
  Z.of_nat (length g) = 9999%Z /\
  forall k, (1 <= k <= 9999)%Z ->
    nth (Z.to_nat (k - 1)) g 0 == inject_Z k / 10000.

(** The annual coupon payment: the coupon rate as a fraction times the face
    value. *)
Definition annual_coupon (b : Bond) : Q := coupon b * (1 # 100) * face_value b.

(** The periodic coupon amount: the annual payment divided by the number of
    coupons per year. *)
Definition periodic_coupon (b : Bond) : Q :=
  annual_coupon b / inject_Z (num_coupon_periods b).

(** The pricing residual of the yield to maturity at the candidate [y]. *)
Definition ytm_residual (b : Bond) (y : Q) : Q :=
  ytm_formula b (periodic_coupon b) y.

(** [sum_{k = 1}^{m} f k]. *)
Definition summation (m : Z) (f : Z -> Q) : Q :=
  np_sum (map f (py_range 1 (m + 1))).

(** [[sum_{k=1}^{n} (k * c) / (1 + i)^k + (n * face_value) / (1 + i)^n] / price]
    for the coupon amount [c], with [i] the coupon rate as a fraction. *)
Definition macaulay_formula (b : Bond) (c : Q) : Q :=
  let i := coupon b * (1 # 100) in
  (summation (n b) (fun k => (inject_Z k * c) / (1 + i) ^ k)
   + (inject_Z (n b) * face_value b) / (1 + i) ^ n b) / price b.

(** The sample variance of a series (divisor [T - 1]). *)
Definition sample_variance (v : list Q) : Q :=
  np_sum (map (fun x => (x - np_mean v) * (x - np_mean v)) v)
  / (inject_Z (Z.of_nat (length v)) - 1).

(** A return matrix with [N] rows of length [T]. *)
Definition is_matrix (N T : nat) (m : list (list Q)) : Prop :=
  length m = N /\ Forall (fun row => length row = T) m.

(** The fraction of the values of a series strictly below [p]. *)
Definition fraction_below (v : list Q) (p : Q) : Q :=
  inject_Z (Z.of_nat (length (filter (fun r => Qltb r p) v)))
  / inject_Z (Z.of_nat (length v)).

(** ** Executable stand-ins for the library functions

    They let the model run on concrete inputs. *)

(** [x ** y] for a whole exponent [y]. *)
Definition whole_power (x y : Q) : Q := x ^ Qfloor y.

(** A rational square root by Heron's iteration from [(1 + x) / 2]; exact
    at zero. *)
Fixpoint heron (x y : Q) (steps : nat) : Q :=
  match steps with
  | O => y
  | S k => heron x ((y + x / y) / 2) k
  end.

Definition heron_sqrt (x : Q) : Q :=
  if Qle_bool x 0 then 0 else Qred (heron x ((1 + x) / 2) 4).

(** The bond of the specification's scenario: price 95, coupon 5%, call
    price 100, face value 100, 5 years to the call, 10 to maturity, two
    coupons a year. *)
Definition scenario_bond : Bond := Bond_init 95 5 100 100 5 10 2.

(** The same bond quoted at the market price -95. *)
Definition negative_price_bond : Bond := Bond_init (-95) 5 100 100 5 10 2.

(** The two-asset return matrix and the weights of the specification's
    scenario. *)
Definition scenario_returns : list (list Q) :=
  [[1 # 100; -2 # 100; 3 # 100; 0]; [2 # 100; 1 # 100; -1 # 100; 2 # 100]].

Definition scenario_weights : list Q := [1 # 2; 1 # 2].

(** Two assets whose returns never move: the portfolio has zero variance. *)
Definition constant_returns : list (list Q) :=
  [[1 # 2; 1 # 2; 1 # 2]; [1 # 4; 1 # 4; 1 # 4]].

(** ** Auxiliary definitions of the proofs *)

(** One comparison of the search loop on one residual array. *)
Definition pick (ys : list Q) (best i : nat) : nat :=
  if Qgtb (Qabs (nth best ys 0)) (Qabs (nth i ys 0)) then i else best.

(** The term that an iteration of the duration loop adds. *)
Definition duration_term (i c : Q) (k : Z) : Q := (inject_Z k * c) / (1 + i) ^ k.

(** Element-wise equality of rational vectors. *)
Definition veq : list Q -> list Q -> Prop := Forall2 Qeq.

(** The index that the search loop of [calculate_yields] selects for the
    residual [f]. *)
Definition scan_index (f : Q -> Q) : nat :=
  fold_left (pick (map f x1)) (seq 0 (length x1)) 0%nat.

(** The matrix whose row [i] is row [i] of [m] plus the constant
    [shifts[i]]. *)
Fixpoint shift_rows (shifts : list Q) (m : list (list Q)) : list (list Q) :=
  match shifts, m with
  | c :: shifts', row :: m' => map (fun x => x + c) row :: shift_rows shifts' m'
  | _, _ => []
  end.

(** All the values of a series lie in [[lo, hi]]. *)
Definition within (lo hi : Q) (v : list Q) : Prop :=
  Forall (fun x => lo <= x /\ x <= hi) v.

(** The mean of the window of [interval] values of [prices] from [t]. *)
Definition window_mean (prices : list Q) (interval t : nat) : Q :=
  np_sum (py_slice prices t (t + interval)) / inject_Z (Z.of_nat interval).

(** The exponential average as a recurrence: each value is
    [alpha * x + (1 - alpha) * previous]. *)
Fixpoint ema_from (alpha prev : Q) (xs : list Q) : list Q :=
  match xs with
  | [] => []
  | x :: xs' =>
      let e := alpha * x + (1 - alpha) * prev in
      e :: ema_from alpha e xs'
  end.

(** The geometric sum [sum_{k=1}^{m} 1 / (1 + i)^(k - 1)]. *)
Definition discount_sum (i : Q) (m : Z) : Q :=
  summation m (fun k => / (1 + i) ^ (k - 1)).

(** * Properties *)

(** ** Comparisons and divisions *)

Lemma Qgtb_true_iff (a b : Q) : Qgtb a b = true <-> b < a.
Proof.
  unfold Qgtb. rewrite negb_true_iff, <- not_true_iff_false, Qle_bool_iff.
  split; [apply Qnot_le_lt | apply Qlt_not_le].
Qed.

Lemma Qltb_true_iff (a b : Q) : Qltb a b = true <-> a < b.
Proof. unfold Qltb. apply (Qgtb_true_iff b a). Qed.

Lemma Qgtb_false_iff (a b : Q) : Qgtb a b = false <-> a <= b.
Proof.
  unfold Qgtb. rewrite negb_false_iff. apply Qle_bool_iff.
Qed.

Lemma Qeq_bool_false (x y : Q) : ~ x == y -> Qeq_bool x y = false.
Proof.
  intro H. destruct (Qeq_bool x y) eqn:E; [|reflexivity].
  apply Qeq_bool_eq in E. contradiction.
Qed.

Lemma py_div_ok (x y : Q) : ~ y == 0 -> py_div x y = Ok (x / y).
Proof. intro H. unfold py_div. rewrite (Qeq_bool_false _ _ H). reflexivity. Qed.

Lemma py_div_zero (x y : Q) : y == 0 -> py_div x y = Raise ZeroDivisionError.
Proof. intro H. unfold py_div. rewrite (Qeq_eq_bool _ _ H). reflexivity. Qed.

Lemma inject_Z_nonzero (z : Z) : z <> 0%Z -> ~ inject_Z z == 0.
Proof.
  intros H E. apply H. unfold Qeq in E. simpl in E. lia.
Qed.

Lemma py_min_Qmin (a b : Q) : py_min a b = Qmin a b.
Proof.
  unfold py_min, Qltb, Qle_bool, Qmin, GenericMinMax.gmin, Qcompare.
  rewrite Z.leb_compare. destruct (Z.compare _ _); reflexivity.
Qed.

(** ** The grid of candidate yields *)

Lemma x1_count :
  Z.to_nat (Qceiling ((1 - (1 # 10000)) / (1 # 10000))) = Z.to_nat 9999.
Proof. reflexivity. Qed.

Lemma x1_length : length x1 = Z.to_nat 9999.
Proof.
  unfold x1, arange. rewrite x1_count, length_map, length_seq. reflexivity.
Qed.

Lemma x1_nth (k : nat) :
  (k < Z.to_nat 9999)%nat ->
  nth k x1 0 = (1 # 10000) + inject_Z (Z.of_nat k) * (1 # 10000).
Proof.
  intro Hk. unfold x1, arange. rewrite x1_count.
  set (g := fun i : nat => (1 # 10000) + inject_Z (Z.of_nat i) * (1 # 10000)).
  rewrite (nth_indep _ 0 (g 0%nat)) by (rewrite length_map, length_seq; exact Hk).
  rewrite map_nth, seq_nth by exact Hk. reflexivity.
Qed.

Lemma x1_nth_bounds (k : nat) :
  (k < Z.to_nat 9999)%nat ->
  (1 # 10000) <= nth k x1 0 /\ nth k x1 0 <= (9999 # 10000).
Proof.
  intro Hk. rewrite (x1_nth k Hk).
  assert (H0 : 0 <= inject_Z (Z.of_nat k)).
  { change 0 with (inject_Z 0). rewrite <- Zle_Qle. lia. }
  assert (H1 : inject_Z (Z.of_nat k) <= 9998).
  { change 9998 with (inject_Z 9998). rewrite <- Zle_Qle. lia. }
  split; lra.
Qed.

Lemma x1_is_yield_grid : is_yield_grid x1.
Proof.
  split.
  - rewrite x1_length. reflexivity.
  - intros k Hk. rewrite x1_nth by lia.
    rewrite Z2Nat.id by lia. unfold Z.sub. rewrite inject_Z_plus.
    change (inject_Z (- (1))) with (-1 # 1). field.
Qed.

Lemma x1_In (y : Q) :
  In y x1 -> exists k, (k < Z.to_nat 9999)%nat /\ y = nth k x1 0.
Proof.
  intro H. destruct (In_nth _ _ 0 H) as (k & Hk & E).
  rewrite x1_length in Hk. exists k. split; [exact Hk | symmetry; exact E].
Qed.

(** ** The search loop *)

Lemma scan_fold (y1 y2 : list Q) (l : list nat) (a b : nat) :
  fold_left (scan_step y1 y2) l (a, b)
  = (fold_left (pick y1) l a, fold_left (pick y2) l b).
Proof.
  revert a b. induction l as [|i l IH]; intros a b; [reflexivity|].
  simpl. apply IH.
Qed.

(** After the indices below [k], the loop holds the index of a value of
    least absolute value among them. *)
Lemma pick_scan (ys : list Q) (k : nat) :
  let r := fold_left (pick ys) (seq 0 k) 0%nat in
  (r < Nat.max 1 k)%nat /\
  forall j, (j < k)%nat -> Qabs (nth r ys 0) <= Qabs (nth j ys 0).
Proof.
  induction k as [|k [IHr IHmin]].
  - simpl. split; [lia | intros j Hj; lia].
  - rewrite seq_S, fold_left_app. simpl fold_left.
    set (r := fold_left (pick ys) (seq 0 k) 0%nat) in *.
    unfold pick at 1. simpl plus.
    destruct (Qgtb (Qabs (nth r ys 0)) (Qabs (nth k ys 0))) eqn:E; cbv zeta.
    + apply Qgtb_true_iff in E. split; [lia|].
      intros j Hj. destruct (Nat.eq_dec j k) as [->|Hne]; [apply Qle_refl|].
      apply Qle_trans with (Qabs (nth r ys 0)).
      * apply Qlt_le_weak, E.
      * apply IHmin. lia.
    + apply Qgtb_false_iff in E. split; [lia|].
      intros j Hj. destruct (Nat.eq_dec j k) as [->|Hne]; [exact E|].
      apply IHmin. lia.
Qed.

Lemma nth_map_default (f : Q -> Q) (l : list Q) (k : nat) :
  (k < length l)%nat -> nth k (map f l) 0 = f (nth k l 0).
Proof.
  intro Hk. rewrite (nth_indep _ 0 (f 0)) by (rewrite length_map; exact Hk).
  apply map_nth.
Qed.

(** The index that the loop selects on the residuals [map f x1]. *)
Lemma pick_scan_grid (f : Q -> Q) :
  let r := fold_left (pick (map f x1)) (seq 0 (length x1)) 0%nat in
  (r < Z.to_nat 9999)%nat /\ minimises f x1 (nth r x1 0).
Proof.
  cbv zeta. rewrite x1_length.
  destruct (pick_scan (map f x1) (Z.to_nat 9999)) as [Hr Hmin].
  set (r := fold_left _ _ _) in *.
  assert (Hr' : (r < Z.to_nat 9999)%nat) by lia.
  split; [exact Hr'|]. split.
  - apply nth_In. rewrite x1_length. exact Hr'.
  - intros y Hy. destruct (x1_In y Hy) as (j & Hj & ->).
    specialize (Hmin j Hj).
    rewrite !nth_map_default in Hmin by (rewrite x1_length; assumption).
    exact Hmin.
Qed.

Section BondProperties.

Variable np_power : Q -> Q -> Q.

(** What [calculate_yields] returns, in terms of the two selected
    indices. *)
Lemma calculate_yields_ok (b : Bond) :
  num_coupon_periods b <> 0%Z ->
  exists r1 r2 : nat,
    (r1 < Z.to_nat 9999)%nat /\ (r2 < Z.to_nat 9999)%nat
    /\ calculate_yields np_power b
       = Ok (inject_Z (num_coupon_periods b) * nth r1 x1 0,
             nth r2 x1 0,
             py_min (inject_Z (num_coupon_periods b) * nth r1 x1 0)
                    (nth r2 x1 0))
    /\ minimises (ytm_residual b) x1 (nth r1 x1 0)
    /\ minimises (ytc_formula np_power b) x1 (nth r2 x1 0).
Proof.
  intro Hncp.
  destruct (pick_scan_grid (ytm_residual b)) as [Hr1 Hm1].
  destruct (pick_scan_grid (ytc_formula np_power b)) as [Hr2 Hm2].
  eexists. eexists.
  split; [exact Hr1|]. split; [exact Hr2|].
  split; [|split; [exact Hm1 | exact Hm2]].
  unfold calculate_yields, f_ytm, f_ytc.
  rewrite py_div_ok by (apply inject_Z_nonzero; exact Hncp).
  unfold bind. rewrite scan_fold, length_map. reflexivity.
Qed.

Lemma calculate_yields_zero_periods (b : Bond) :
  num_coupon_periods b = 0%Z ->
  calculate_yields np_power b = Raise ZeroDivisionError.
Proof.
  intro H. unfold calculate_yields, f_ytm. rewrite py_div_zero; [reflexivity|].
  rewrite H. reflexivity.
Qed.

Lemma Bond_init_periods (price coupon call_price face_value t years : Q)
    (ncp : Z) :
  (1 <= n (Bond_init price coupon call_price face_value t years ncp))%Z ->
  ncp <> 0%Z.
Proof.
  intros H ->. unfold Bond_init, n, py_int in H. simpl in H.
  rewrite Z.mul_0_r, Z.quot_0_l in H; lia.
Qed.

(** C1: for a bond with at least one remaining period, [calculate_yields]
    scans the grid 0.0001, 0.0002, ..., 0.9999 and selects, for each of the
    two residuals on its own, a candidate of the grid that minimises the
    absolute residual; the YTM returned is [num_coupon_periods] times the
    candidate selected for [f_ytm], the YTC is the candidate selected for
    [f_ytc]. *)
Theorem calculate_yields_selects_minimisers
    (price coupon call_price face_value t years : Q) (ncp : Z) :
  let b := Bond_init price coupon call_price face_value t years ncp in
  (1 <= n b)%Z ->
  is_yield_grid x1 /\
  exists c_ytm c_ytc,
    calculate_yields np_power b
    = Ok (inject_Z ncp * c_ytm, c_ytc, py_min (inject_Z ncp * c_ytm) c_ytc)
    /\ minimises (ytm_residual b) x1 c_ytm
    /\ minimises (ytc_formula np_power b) x1 c_ytc.
Proof.
  intros b Hn. split; [exact x1_is_yield_grid|].
  assert (Hncp : num_coupon_periods b <> 0%Z)
    by (exact (Bond_init_periods _ _ _ _ _ _ _ Hn)).
  destruct (calculate_yields_ok b Hncp) as (r1 & r2 & _ & _ & Hret & Hm1 & Hm2).
  exists (nth r1 x1 0), (nth r2 x1 0).
  split; [exact Hret|]. split; assumption.
Qed.

(** C10: on a bond with a positive number of coupons per year,
    [calculate_yields] returns; the YTC lies in [0.0001, 0.9999], the YTM
    in [0.0001 * num_coupon_periods, 0.9999 * num_coupon_periods], and the
    three yields are strictly positive, whatever the residuals are. *)
Theorem calculate_yields_bounded (b : Bond) :
  (0 < num_coupon_periods b)%Z ->
  exists ytm ytc ytw,
    calculate_yields np_power b = Ok (ytm, ytc, ytw)
    /\ ((1 # 10000) <= ytc /\ ytc <= (9999 # 10000))
    /\ ((1 # 10000) * inject_Z (num_coupon_periods b) <= ytm
        /\ ytm <= (9999 # 10000) * inject_Z (num_coupon_periods b))
    /\ 0 < ytm /\ 0 < ytc /\ 0 < ytw.
Proof.
  intro Hncp.
  assert (Hne : num_coupon_periods b <> 0%Z) by lia.
  destruct (calculate_yields_ok b Hne) as (r1 & r2 & Hr1 & Hr2 & Hret & _).
  destruct (x1_nth_bounds _ Hr1) as [Hlo1 Hhi1].
  destruct (x1_nth_bounds _ Hr2) as [Hlo2 Hhi2].
  revert Hret Hlo1 Hhi1 Hlo2 Hhi2.
  generalize (nth r1 x1 0) (nth r2 x1 0). intros c1 c2 Hret Hlo1 Hhi1 Hlo2 Hhi2.
  assert (Hp : 1 <= inject_Z (num_coupon_periods b)).
  { change 1 with (inject_Z 1). rewrite <- Zle_Qle. lia. }
  assert (Hytm : 0 < inject_Z (num_coupon_periods b) * c1) by nra.
  assert (Hytc : 0 < c2) by lra.
  exists (inject_Z (num_coupon_periods b) * c1), c2,
    (py_min (inject_Z (num_coupon_periods b) * c1) c2).
  split; [exact Hret|].
  repeat split; try lra; try nra.
  unfold py_min. destruct (Qltb _ _); assumption.
Qed.

End BondProperties.

(** ** The durations *)

Lemma np_sum_cons (a : Q) (l : list Q) : np_sum (a :: l) = a + np_sum l.
Proof. reflexivity. Qed.

Lemma np_sum_nonneg (l : list Q) :
  Forall (fun x => 0 <= x) l -> 0 <= np_sum l.
Proof.
  induction 1 as [|x l Hx _ IH]; [apply Qle_refl|].
  rewrite np_sum_cons. lra.
Qed.

Lemma py_range_nil (lo hi : Z) : (hi <= lo)%Z -> py_range lo hi = [].
Proof.
  intro H. unfold py_range. replace (Z.to_nat (hi - lo)) with 0%nat by lia.
  reflexivity.
Qed.

Lemma py_range_In (lo hi k : Z) :
  In k (py_range lo hi) -> (lo <= k < hi)%Z.
Proof.
  unfold py_range. rewrite in_map_iff. intros (j & <- & Hj).
  apply in_seq in Hj. lia.
Qed.

Lemma py_range_last (m : Z) :
  (1 <= m)%Z ->
  exists l, py_range 1 (m + 1) = l ++ [m].
Proof.
  intro Hm. unfold py_range.
  replace (Z.to_nat (m + 1 - 1)) with (S (Z.to_nat (m - 1))) by lia.
  rewrite seq_S, map_app.
  exists (map (fun j => (1 + Z.of_nat j)%Z) (seq 0 (Z.to_nat (m - 1)))).
  f_equal. unfold map. f_equal. lia.
Qed.

(** The loop adds the terms in order and leaves the loop variable at the
    last value of the range. *)
Lemma durations_loop_ok (i c : Q) (ts : list Z) :
  ~ 1 + i == 0 ->
  forall (pv : Q) (last0 : option Z),
  exists pv',
    durations_loop i c ts pv last0
    = Ok (pv', match ts with [] => last0 | _ => Some (last ts 0%Z) end)
    /\ pv' == pv + np_sum (map (duration_term i c) ts).
Proof.
  intro Hi. induction ts as [|k ts IH]; intros pv last0.
  - exists pv. split; [reflexivity|]. simpl. unfold np_sum. simpl. ring.
  - simpl durations_loop.
    rewrite py_div_ok by (apply Qpower_not_0; exact Hi).
    unfold bind. destruct (IH (pv + inject_Z k * c / (1 + i) ^ k) (Some k))
      as (pv' & E & Hpv).
    exists pv'. split.
    + rewrite E. destruct ts; reflexivity.
    + rewrite Hpv. simpl map. rewrite np_sum_cons. unfold duration_term. ring.
Qed.

(** The Macaulay Duration of the code discounts the annual coupon payment. *)
Lemma calculate_durations_ok (b : Bond) (ytm : Q) :
  (1 <= n b)%Z ->
  ~ 1 + coupon b * (1 # 100) == 0 ->
  ~ price b == 0 ->
  exists mac,
    calculate_durations b ytm
    = Ok (mac, mac / (1 + ytm / inject_Z (num_coupon_periods b)))
    /\ mac == macaulay_formula b (annual_coupon b).
Proof.
  intros Hn Hi Hp. unfold calculate_durations.
  destruct (durations_loop_ok (coupon b * (1 # 100))
              (coupon b * (1 # 100) * face_value b)
              (py_range 1 (n b + 1)) Hi 0 None) as (pv & E & Hpv).
  rewrite E. unfold bind.
  destruct (py_range_last (n b) Hn) as (l & El).
  assert (Hlast : match py_range 1 (n b + 1) with
                  | [] => None
                  | _ => Some (last (py_range 1 (n b + 1)) 0%Z)
                  end = Some (n b)).
  { rewrite El, last_last. destruct l; reflexivity. }
  rewrite Hlast.
  rewrite py_div_ok by (apply Qpower_not_0; exact Hi).
  rewrite py_div_ok by exact Hp.
  eexists. split; [reflexivity|].
  unfold macaulay_formula, summation, annual_coupon. rewrite Hpv.
  unfold duration_term. apply Qdiv_comp; [|reflexivity].
  ring.
Qed.

Lemma calculate_durations_no_periods (b : Bond) (ytm : Q) :
  (n b <= 0)%Z -> calculate_durations b ytm = Raise UnboundLocalError.
Proof.
  intro Hn. unfold calculate_durations.
  rewrite py_range_nil by lia. reflexivity.
Qed.

Lemma calculate_durations_zero_price (b : Bond) (ytm : Q) :
  (1 <= n b)%Z ->
  ~ 1 + coupon b * (1 # 100) == 0 ->
  price b == 0 ->
  calculate_durations b ytm = Raise ZeroDivisionError.
Proof.
  intros Hn Hi Hp. unfold calculate_durations.
  destruct (durations_loop_ok (coupon b * (1 # 100))
              (coupon b * (1 # 100) * face_value b)
              (py_range 1 (n b + 1)) Hi 0 None) as (pv & E & Hpv).
  rewrite E. unfold bind.
  destruct (py_range_last (n b) Hn) as (l & El).
  rewrite El, last_last. destruct l; simpl app; cbv iota;
    rewrite py_div_ok by (apply Qpower_not_0; exact Hi);
    rewrite py_div_zero by exact Hp; reflexivity.
Qed.

Lemma valid_bond_rate (b : Bond) :
  valid_bond b -> 0 < 1 + coupon b * (1 # 100).
Proof. intros [_ _ _ Hc _ _ _]. lra. Qed.

Lemma macaulay_formula_pos (b : Bond) :
  valid_bond b -> 0 < macaulay_formula b (annual_coupon b).
Proof.
  intro Hv. pose proof (valid_bond_rate b Hv) as Hi.
  destruct Hv as [Hp Hf _ Hc _ _ Hn].
  unfold macaulay_formula.
  assert (Hc' : 0 <= annual_coupon b).
  { unfold annual_coupon. apply Qmult_le_0_compat; [|lra].
    apply Qmult_le_0_compat; [exact Hc|discriminate]. }
  assert (Hsum : 0 <= summation (n b)
            (fun k => inject_Z k * annual_coupon b / (1 + coupon b * (1 # 100)) ^ k)).
  { unfold summation. apply np_sum_nonneg. apply Forall_forall.
    intros x Hx. apply in_map_iff in Hx. destruct Hx as (k & <- & Hk).
    apply py_range_In in Hk.
    apply Qle_shift_div_l; [apply Qpower_0_lt; exact Hi|].
    rewrite Qmult_0_l. apply Qmult_le_0_compat; [|exact Hc'].
    change 0 with (inject_Z 0). rewrite <- Zle_Qle. lia. }
  assert (Hfin : 0 < inject_Z (n b) * face_value b
                     / (1 + coupon b * (1 # 100)) ^ n b).
  { apply Qlt_shift_div_l; [apply Qpower_0_lt; exact Hi|].
    rewrite Qmult_0_l. apply Qmult_lt_0_compat; [|exact Hf].
    change 0 with (inject_Z 0). rewrite <- Zlt_Qlt. lia. }
  apply Qlt_shift_div_l; [exact Hp|]. rewrite Qmult_0_l. lra.
Qed.

(** C5: for a valid bond, [calculate_durations] returns the Macaulay
    Duration together with Macaulay / (1 + YTM / num_coupon_periods) as
    Modified Duration; the latter is strictly smaller when
    YTM / num_coupon_periods is positive, and equal when YTM is zero. *)
Theorem modified_duration_relation (b : Bond) (ytm : Q) :
  valid_bond b ->
  exists macaulay_duration modified_duration,
    calculate_durations b ytm = Ok (macaulay_duration, modified_duration)
    /\ modified_duration
       == macaulay_duration / (1 + ytm / inject_Z (num_coupon_periods b))
    /\ (0 < ytm / inject_Z (num_coupon_periods b) ->
        modified_duration < macaulay_duration)
    /\ (ytm == 0 -> modified_duration == macaulay_duration).
Proof.
  intro Hv. pose proof (valid_bond_rate b Hv) as Hi.
  pose proof (macaulay_formula_pos b Hv) as Hpos.
  destruct (calculate_durations_ok b ytm) as (mac & E & Hmac).
  - apply Hv.
  - lra.
  - pose proof (vb_price b Hv). lra.
  - rewrite <- Hmac in Hpos. exists mac. eexists. split; [exact E|].
    split; [reflexivity|]. split.
    + intro Hy. apply Qlt_shift_div_r; [lra|]. nra.
    + intro Hy. rewrite Hy. unfold Qdiv at 2. rewrite Qmult_0_l.
      field.
Qed.

(** C2: on the bond of the specification's scenario (two coupons a year),
    the Macaulay Duration that [calculate_durations] returns is the formula
    evaluated with the annual coupon payment, and differs from the formula
    evaluated with the periodic coupon amount. *)
Theorem macaulay_duration_discounts_annual_coupon (ytm : Q) :
  exists macaulay_duration modified_duration,
    calculate_durations scenario_bond ytm
    = Ok (macaulay_duration, modified_duration)
    /\ macaulay_duration
       == macaulay_formula scenario_bond (annual_coupon scenario_bond)
    /\ ~ macaulay_duration
         == macaulay_formula scenario_bond (periodic_coupon scenario_bond).
Proof.
  destruct (calculate_durations_ok scenario_bond ytm) as (mac & E & Hmac).
  - vm_compute. discriminate.
  - vm_compute. discriminate.
  - vm_compute. discriminate.
  - exists mac. eexists. split; [exact E|]. split; [exact Hmac|].
    rewrite Hmac. apply Qeq_bool_neq. vm_compute. reflexivity.
Qed.

(** ** The five analytics together *)

Section AnalyticsProperties.

Variable np_power : Q -> Q -> Q.

(** When the code returns: at least one remaining period, a rate other
    than -100% and a price other than zero. *)
Lemma calculate_bond_analytics_ok (b : Bond) :
  (1 <= n b)%Z ->
  num_coupon_periods b <> 0%Z ->
  ~ 1 + coupon b * (1 # 100) == 0 ->
  ~ price b == 0 ->
  exists ytm ytc mac,
    calculate_bond_analytics np_power b
    = Ok (ytm, ytc, py_min ytm ytc, mac,
          mac / (1 + ytm / inject_Z (num_coupon_periods b)))
    /\ mac == macaulay_formula b (annual_coupon b).
Proof.
  intros Hn Hncp Hi Hp. unfold calculate_bond_analytics.
  destruct (calculate_yields_ok np_power b Hncp)
    as (r1 & r2 & _ & _ & Hret & _).
  rewrite Hret. unfold bind.
  destruct (calculate_durations_ok b
              (inject_Z (num_coupon_periods b) * nth r1 x1 0) Hn Hi Hp)
    as (mac & E & Hmac).
  rewrite E. eexists. eexists. exists mac.
  split; [reflexivity | exact Hmac].
Qed.

(** C4: for a valid bond, [calculate_bond_analytics] returns a 5-tuple
    whose Yield to Worst is the minimum of its YTM and its YTC. *)
Theorem yield_to_worst_is_minimum (b : Bond) :
  valid_bond b ->
  exists ytm ytc ytw macaulay_duration modified_duration,
    calculate_bond_analytics np_power b
    = Ok (ytm, ytc, ytw, macaulay_duration, modified_duration)
    /\ ytw = Qmin ytm ytc.
Proof.
  intro Hv. pose proof (valid_bond_rate b Hv) as Hi.
  destruct (calculate_bond_analytics_ok b) as (ytm & ytc & mac & E & _).
  - apply Hv.
  - pose proof (vb_periods b Hv). lia.
  - lra.
  - pose proof (vb_price b Hv). lra.
  - exists ytm, ytc, (py_min ytm ytc), mac. eexists.
    split; [exact E | apply py_min_Qmin].
Qed.

(** C9 (as the code has it): [calculate_bond_analytics] validates nothing.
    With at least one remaining period and a coupon rate other than -100%,
    it returns a 5-tuple for every market price other than zero, negative
    prices and non-positive face values included; a price of zero makes
    the division by the price raise [ZeroDivisionError]. *)
Theorem calculate_bond_analytics_validates_nothing (b : Bond) :
  (1 <= n b)%Z ->
  num_coupon_periods b <> 0%Z ->
  ~ 1 + coupon b * (1 # 100) == 0 ->
  (~ price b == 0 ->
   exists tuple, calculate_bond_analytics np_power b = Ok tuple)
  /\ (price b == 0 ->
      calculate_bond_analytics np_power b = Raise ZeroDivisionError).
Proof.
  intros Hn Hncp Hi. split; intro Hp.
  - destruct (calculate_bond_analytics_ok b Hn Hncp Hi Hp)
      as (ytm & ytc & mac & E & _).
    eexists. exact E.
  - unfold calculate_bond_analytics.
    destruct (calculate_yields_ok np_power b Hncp)
      as (r1 & r2 & _ & _ & Hret & _).
    rewrite Hret. unfold bind.
    rewrite (calculate_durations_zero_price b _ Hn Hi Hp). reflexivity.
Qed.

(** Without a remaining period the loop variable of [calculate_durations]
    is never bound. *)
Lemma calculate_bond_analytics_no_periods (b : Bond) :
  num_coupon_periods b <> 0%Z ->
  (n b <= 0)%Z ->
  calculate_bond_analytics np_power b = Raise UnboundLocalError.
Proof.
  intros Hncp Hn. unfold calculate_bond_analytics.
  destruct (calculate_yields_ok np_power b Hncp)
    as (r1 & r2 & _ & _ & Hret & _).
  rewrite Hret. unfold bind.
  rewrite (calculate_durations_no_periods b _ Hn). reflexivity.
Qed.

End AnalyticsProperties.

(** The scenario's bond is valid. *)
Lemma scenario_bond_valid : valid_bond scenario_bond.
Proof.
  split; try (vm_compute; reflexivity); try (vm_compute; discriminate).
  split; vm_compute; discriminate.
Defined.

(** ** Vectors up to [==] *)

#[local] Instance veq_Equivalence : Equivalence veq.
Proof.
  split.
  - intro u. induction u; constructor; [reflexivity | assumption].
  - intros u v H. induction H; constructor; [symmetry|]; assumption.
  - intros u v w H. revert w.
    induction H as [|a b u v Hab _ IH]; intros w Hw.
    + exact Hw.
    + inversion Hw as [|b' c v' w' Hbc Hvw]; subst. constructor.
      * rewrite Hab. exact Hbc.
      * apply IH. exact Hvw.
Qed.

Lemma veq_length (u v : list Q) : veq u v -> length u = length v.
Proof. induction 1; simpl; congruence. Qed.

Lemma veq_map (f g : Q -> Q) (l : list Q) :
  (forall x, In x l -> f x == g x) -> veq (map f l) (map g l).
Proof.
  induction l as [|a l IH]; intro H; constructor.
  - apply H. left. reflexivity.
  - apply IH. intros x Hx. apply H. right. exact Hx.
Qed.

#[local] Instance np_sum_veq : Proper (veq ==> Qeq) np_sum.
Proof.
  intros u v H. induction H as [|a b u v Hab _ IH]; [reflexivity|].
  rewrite !np_sum_cons, Hab, IH. reflexivity.
Qed.

#[local] Instance zip_with_mult_veq : Proper (veq ==> veq ==> veq) (zip_with Qmult).
Proof.
  intros u u' Hu. induction Hu as [|a a' u u' Ha _ IH]; intros v v' Hv.
  - constructor.
  - destruct Hv as [|b b' v v' Hb Hv]; simpl; constructor.
    + rewrite Ha, Hb. reflexivity.
    + apply IH. exact Hv.
Qed.

#[local] Instance vadd_veq : Proper (veq ==> veq ==> veq) vadd.
Proof.
  intros u u' Hu. induction Hu as [|a a' u u' Ha _ IH]; intros v v' Hv.
  - constructor.
  - destruct Hv as [|b b' v v' Hb Hv]; simpl; constructor.
    + rewrite Ha, Hb. reflexivity.
    + apply IH. exact Hv.
Qed.

#[local] Instance dot1_veq : Proper (veq ==> veq ==> Qeq) dot1.
Proof. intros u u' Hu v v' Hv. unfold dot1. rewrite Hu, Hv. reflexivity. Qed.

Lemma vadd_cons (a b : Q) (u v : list Q) :
  vadd (a :: u) (b :: v) = (a + b) :: vadd u v.
Proof. reflexivity. Qed.

Lemma vscale_cons (a b : Q) (u : list Q) :
  vscale a (b :: u) = (a * b) :: vscale a u.
Proof. reflexivity. Qed.

Lemma vadd_length (u v : list Q) :
  length u = length v -> length (vadd u v) = length u.
Proof.
  revert v. induction u as [|a u IH]; intros [|b v] H; simpl in *;
    try discriminate; [reflexivity|].
  f_equal. apply IH. congruence.
Qed.

Lemma vscale_length (a : Q) (u : list Q) : length (vscale a u) = length u.
Proof. apply length_map. Qed.

Lemma np_sum_vadd (u v : list Q) :
  length u = length v -> np_sum (vadd u v) == np_sum u + np_sum v.
Proof.
  revert v. induction u as [|a u IH]; intros [|b v] H; simpl in H;
    try discriminate.
  - unfold np_sum. simpl. ring.
  - rewrite vadd_cons, !np_sum_cons, IH by congruence. ring.
Qed.

Lemma np_sum_vscale (a : Q) (u : list Q) :
  np_sum (vscale a u) == a * np_sum u.
Proof.
  induction u as [|b u IH].
  - unfold np_sum. simpl. ring.
  - rewrite vscale_cons, !np_sum_cons, IH. ring.
Qed.

Lemma np_sum_zeros (T : nat) : np_sum (repeat 0 T) == 0.
Proof.
  induction T as [|T IH]; [reflexivity|].
  simpl repeat. rewrite np_sum_cons, IH. ring.
Qed.

Lemma dot1_cons (a b : Q) (u v : list Q) :
  dot1 (a :: u) (b :: v) = a * b + dot1 u v.
Proof. reflexivity. Qed.

Lemma dot1_nil_r (u : list Q) : dot1 u [] = 0.
Proof. destruct u; reflexivity. Qed.

Lemma dot1_comm (u v : list Q) : dot1 u v == dot1 v u.
Proof.
  revert v. induction u as [|a u IH]; intros [|b v]; try reflexivity.
  rewrite !dot1_cons, IH. ring.
Qed.

Lemma dot1_vadd_l (u v y : list Q) :
  length u = length v ->
  dot1 (vadd u v) y == dot1 u y + dot1 v y.
Proof.
  revert v y. induction u as [|a u IH]; intros [|b v] y H; simpl in H;
    try discriminate.
  - unfold dot1. simpl. ring.
  - destruct y as [|c y]; [rewrite !dot1_nil_r; ring|].
    rewrite vadd_cons, !dot1_cons, IH by congruence. ring.
Qed.

Lemma dot1_vscale_l (a : Q) (u y : list Q) :
  dot1 (vscale a u) y == a * dot1 u y.
Proof.
  revert y. induction u as [|b u IH]; intros [|c y];
    try (unfold dot1; simpl; ring).
  rewrite vscale_cons, !dot1_cons, IH. ring.
Qed.

Lemma dot1_zeros_l (T : nat) (y : list Q) : dot1 (repeat 0 T) y == 0.
Proof.
  revert y. induction T as [|T IH]; intros [|c y]; try reflexivity.
  simpl repeat. rewrite dot1_cons, IH. ring.
Qed.

Lemma dot1_self_nonneg (u : list Q) : 0 <= dot1 u u.
Proof.
  induction u as [|a u IH]; [apply Qle_refl|].
  rewrite dot1_cons. nra.
Qed.

Lemma np_sum_squares (f : Q -> Q) (l : list Q) :
  np_sum (map (fun x => f x * f x) l) = dot1 (map f l) (map f l).
Proof.
  induction l as [|a l IH]; [reflexivity|].
  simpl map. rewrite np_sum_cons, dot1_cons, IH. reflexivity.
Qed.

(** ** Linear combinations of rows *)

Lemma np_mean_combination (a : Q) (r p : list Q) :
  length r = length p ->
  np_mean (vadd (vscale a r) p) == a * np_mean r + np_mean p.
Proof.
  intro H. unfold np_mean.
  rewrite vadd_length, vscale_length by (rewrite vscale_length; exact H).
  rewrite np_sum_vadd by (rewrite vscale_length; exact H).
  rewrite np_sum_vscale, <- H. unfold Qdiv. ring.
Qed.

Lemma shift_combination (a m mr mp : Q) (r p : list Q) :
  m == a * mr + mp ->
  veq (map (fun x => x - m) (vadd (vscale a r) p))
      (vadd (vscale a (map (fun x => x - mr) r)) (map (fun x => x - mp) p)).
Proof.
  intro Hm. revert p. induction r as [|x r IH]; intros [|y p];
    try constructor.
  - rewrite Hm. ring.
  - apply IH.
Qed.

Lemma center_combination (a : Q) (r p : list Q) :
  length r = length p ->
  veq (center (vadd (vscale a r) p)) (vadd (vscale a (center r)) (center p)).
Proof.
  intro H. unfold center. apply shift_combination.
  apply np_mean_combination. exact H.
Qed.

Lemma center_zeros (T : nat) : veq (center (repeat 0 T)) (repeat 0 T).
Proof.
  unfold center.
  assert (Hm : np_mean (repeat 0 T) == 0).
  { unfold np_mean. rewrite np_sum_zeros. unfold Qdiv. ring. }
  revert Hm. generalize (np_mean (repeat 0 T)). intros m Hm.
  induction T as [|T IH]; constructor; [rewrite Hm; ring | exact IH].
Qed.

Lemma center_length (row : list Q) : length (center row) = length row.
Proof. apply length_map. Qed.

Lemma lincomb_length (T : nat) (w : list Q) (m : list (list Q)) :
  Forall (fun row => length row = T) m -> length (lincomb T w m) = T.
Proof.
  intro H. revert w. induction H as [|row m Hrow _ IH]; intros [|a w];
    simpl; try apply repeat_length.
  rewrite vadd_length; rewrite vscale_length; [exact Hrow|].
  rewrite IH. exact Hrow.
Qed.

Lemma Forall_center (T : nat) (m : list (list Q)) :
  Forall (fun row => length row = T) m ->
  Forall (fun row => length row = T) (map center m).
Proof.
  intro H. apply Forall_map. eapply Forall_impl; [|exact H].
  intros row Hrow. rewrite center_length. exact Hrow.
Qed.

(** Centring commutes with linear combinations. *)
Lemma center_lincomb (T : nat) (w : list Q) (m : list (list Q)) :
  Forall (fun row => length row = T) m ->
  veq (center (lincomb T w m)) (lincomb T w (map center m)).
Proof.
  intro H. revert w. induction H as [|row m Hrow Hm IH]; intros [|a w];
    simpl; try apply center_zeros.
  rewrite center_combination by (rewrite lincomb_length; assumption).
  apply vadd_veq; [reflexivity | apply IH].
Qed.

(** The product with a linear combination is the combination of the
    products. *)
Lemma dot1_lincomb (T : nat) (w y : list Q) (m : list (list Q)) :
  Forall (fun row => length row = T) m ->
  dot1 (lincomb T w m) y == dot1 w (map (fun x => dot1 x y) m).
Proof.
  intro H. revert w. induction H as [|row m Hrow Hm IH]; intros [|a w];
    simpl; try apply dot1_zeros_l.
  rewrite dot1_vadd_l by (rewrite vscale_length, lincomb_length; assumption).
  rewrite dot1_vscale_l, IH, dot1_cons. reflexivity.
Qed.

Lemma gram_zero_row (T : nat) (g : Q) (Y : list (list Q)) :
  veq (repeat 0 (length Y)) (map (fun yj => dot1 (repeat 0 T) yj * g) Y).
Proof.
  induction Y as [|y Y IH]; constructor; [|exact IH].
  rewrite dot1_zeros_l. ring.
Qed.

Lemma gram_combination (a g : Q) (xi q : list Q) (Y : list (list Q)) :
  length xi = length q ->
  veq (vadd (vscale a (map (fun yj => dot1 xi yj * g) Y))
            (map (fun yj => dot1 q yj * g) Y))
      (map (fun yj => dot1 (vadd (vscale a xi) q) yj * g) Y).
Proof.
  intro H. induction Y as [|y Y IH]; constructor; [|exact IH].
  rewrite dot1_vadd_l by (rewrite vscale_length; exact H).
  rewrite dot1_vscale_l. ring.
Qed.

(** A combination of the rows of scaled products [dot1 xi yj * g] is the row
    of the products of the combination. *)
Lemma lincomb_gram (T : nat) (g : Q) (w : list Q) (Xs Y : list (list Q)) :
  Forall (fun row => length row = T) Xs ->
  veq (lincomb (length Y) w
         (map (fun xi => map (fun yj => dot1 xi yj * g) Y) Xs))
      (map (fun yj => dot1 (lincomb T w Xs) yj * g) Y).
Proof.
  intro H. revert w. induction H as [|xi Xs Hxi HXs IH]; intros [|a w];
    simpl; try apply gram_zero_row.
  rewrite IH. apply gram_combination.
  rewrite lincomb_length; assumption.
Qed.

Lemma dot1_gram_row (g : Q) (q w : list Q) (X : list (list Q)) :
  dot1 (map (fun xj => dot1 q xj * g) X) w
  == dot1 w (map (fun x => dot1 x q) X) * g.
Proof.
  revert w. induction X as [|x X IH]; intros [|a w]; try reflexivity.
  simpl map. rewrite !dot1_cons, IH, (dot1_comm q x). ring.
Qed.

(** [numpy.dot(u, w_T)[0]] for the column [w_T] of the weights. *)
Lemma lincomb_column (u w : list Q) :
  veq (lincomb 1 u (map (fun x => [x]) w)) [dot1 u w].
Proof.
  revert w. induction u as [|a u IH]; intros [|x w];
    try (repeat constructor; reflexivity).
  simpl map. simpl lincomb. rewrite IH. rewrite dot1_cons.
  repeat constructor.
Qed.

Lemma veq_singleton (l : list Q) (d : Q) : veq l [d] -> nth 0 l 0 == d.
Proof.
  intro H. destruct l as [|a l]; inversion H; subst. assumption.
Qed.

Lemma np_dot_column (u w : list Q) :
  nth 0 (np_dot u (map (fun x => [x]) w)) 0 == dot1 u w.
Proof.
  unfold np_dot. destruct w as [|x w].
  - simpl. destruct u; rewrite ?dot1_nil_r; reflexivity.
  - change (shape1 (map (fun x0 => [x0]) (x :: w))) with 1%nat.
    apply veq_singleton, lincomb_column.
Qed.

Lemma shape1_np_cov (m : list (list Q)) : shape1 (np_cov m) = length m.
Proof.
  destruct m as [|row m]; [reflexivity|].
  unfold np_cov. simpl. rewrite length_map, length_map. reflexivity.
Qed.

Lemma shape1_matrix (N T : nat) (m : list (list Q)) :
  is_matrix N T m -> (1 <= N)%nat -> shape1 m = T.
Proof.
  intros [HN Hrows] H1. destruct m as [|row m]; simpl in *; [lia|].
  apply Forall_inv in Hrows. exact Hrows.
Qed.

(** The quadratic form of the code, in terms of the combination [q] of the
    centred rows: [dot1 q q / (T - 1)]. *)
Lemma portfolio_volatility_centered (N T : nat)
    (returns : list (list Q)) (weights : list Q) :
  is_matrix N T returns -> (1 <= N)%nat ->
  let q := lincomb T weights (map center returns) in
  portfolio_volatility returns weights
  == dot1 q q * (1 / (inject_Z (Z.of_nat T) - 1)).
Proof.
  intros Hm HN q. subst q. unfold portfolio_volatility.
  rewrite np_dot_column. unfold np_dot at 1.
  rewrite shape1_np_cov. unfold np_cov.
  rewrite (shape1_matrix N T returns Hm HN).
  set (g := 1 / (inject_Z (Z.of_nat T) - 1)).
  set (X := map center returns).
  assert (HX : Forall (fun row => length row = T) X)
    by (apply Forall_center; apply Hm).
  replace (length returns) with (length X) by (apply length_map).
  rewrite (lincomb_gram T g weights X X HX).
  set (q := lincomb T weights X).
  rewrite dot1_gram_row.
  rewrite <- (dot1_lincomb T weights q X HX).
  reflexivity.
Qed.

Lemma sample_variance_centered (N T : nat)
    (returns : list (list Q)) (weights : list Q) :
  is_matrix N T returns -> (1 <= N)%nat ->
  let q := lincomb T weights (map center returns) in
  sample_variance (portfolio_returns returns weights)
  == dot1 q q / (inject_Z (Z.of_nat T) - 1).
Proof.
  intros Hm HN q. unfold sample_variance, portfolio_returns, np_dot.
  rewrite (shape1_matrix N T returns Hm HN).
  rewrite lincomb_length by apply Hm.
  rewrite (np_sum_squares (fun x => x - np_mean (lincomb T weights returns))).
  fold (center (lincomb T weights returns)).
  rewrite (center_lincomb T weights returns) by apply Hm.
  reflexivity.
Qed.

(** C3: for weights of length [N] and an [N x T] return matrix with
    [T >= 2], the quadratic form [w . Cov(R) . w^T] that
    [portfolio_volatility] returns equals the sample variance of the weighted
    series [portfolio_returns R w]. *)
Theorem portfolio_volatility_is_sample_variance (N T : nat)
    (returns : list (list Q)) (weights : list Q) :
  is_matrix N T returns ->
  length weights = N ->
  (1 <= N)%nat ->
  (2 <= T)%nat ->
  length (portfolio_returns returns weights) = T /\
  portfolio_volatility returns weights
  == sample_variance (portfolio_returns returns weights).
Proof.
  intros Hm Hw HN HT. split.
  - unfold portfolio_returns, np_dot.
    rewrite (shape1_matrix N T returns Hm HN). apply lincomb_length, Hm.
  - rewrite (portfolio_volatility_centered N T) by assumption.
    rewrite (sample_variance_centered N T) by assumption.
    unfold Qdiv. ring.
Qed.

Lemma portfolio_volatility_nonneg (N T : nat)
    (returns : list (list Q)) (weights : list Q) :
  is_matrix N T returns -> (1 <= N)%nat -> (2 <= T)%nat ->
  0 <= portfolio_volatility returns weights.
Proof.
  intros Hm HN HT.
  rewrite (portfolio_volatility_centered N T) by assumption.
  apply Qmult_le_0_compat; [apply dot1_self_nonneg|].
  apply Qle_shift_div_l.
  - assert (H : 2 <= inject_Z (Z.of_nat T)).
    { change 2 with (inject_Z 2). rewrite <- Zle_Qle. lia. }
    lra.
  - lra.
Qed.

(** ** Historical VaR *)

Lemma fold_left_ext_in {A B : Type} (f g : A -> B -> A) (l : list B) (a : A) :
  (forall acc x, In x l -> f acc x = g acc x) ->
  fold_left f l a = fold_left g l a.
Proof.
  revert a. induction l as [|x l IH]; intros a H; [reflexivity|].
  simpl. rewrite H by (left; reflexivity).
  apply IH. intros acc y Hy. apply H. right. exact Hy.
Qed.

(** The loop counts the values strictly below the cutoff. *)
Lemma count_loop (port_returns : list Q) (var_p : Q) :
  fold_left (count_step port_returns var_p) (seq 0 (length port_returns)) 0%Z
  = Z.of_nat (length (filter (fun r => Qltb r var_p) port_returns)).
Proof.
  induction port_returns as [|a l IH] using rev_ind; [reflexivity|].
  rewrite length_app, Nat.add_1_r, seq_S, fold_left_app. simpl fold_left.
  rewrite (fold_left_ext_in (count_step (l ++ [a]) var_p) (count_step l var_p)).
  - rewrite IH. unfold count_step. simpl plus.
    rewrite app_nth2, Nat.sub_diag by lia. simpl nth.
    rewrite filter_app, length_app. simpl filter.
    destruct (Qltb a var_p); simpl length; lia.
  - intros acc i Hi. apply in_seq in Hi. unfold count_step.
    rewrite app_nth1 by lia. reflexivity.
Qed.

Lemma filter_length_mono {A : Type} (f g : A -> bool) (l : list A) :
  (forall x, f x = true -> g x = true) ->
  (length (filter f l) <= length (filter g l))%nat.
Proof.
  intro H. induction l as [|a l IH]; [apply Nat.le_refl|].
  simpl. destruct (f a) eqn:Ef.
  - rewrite (H a Ef). simpl. lia.
  - destruct (g a); simpl; lia.
Qed.

Lemma historical_var_ok (port_returns : list Q) (var_p : Q) :
  port_returns <> [] ->
  historical_var port_returns var_p = Ok (fraction_below port_returns var_p).
Proof.
  intro H. unfold historical_var. rewrite count_loop.
  rewrite py_div_ok; [reflexivity|].
  apply inject_Z_nonzero. destruct port_returns; [contradiction|].
  simpl length. lia.
Qed.

Lemma historical_var_empty (var_p : Q) :
  historical_var [] var_p = Raise ZeroDivisionError.
Proof. reflexivity. Qed.

Lemma fraction_below_bounds (v : list Q) (p : Q) :
  v <> [] -> 0 <= fraction_below v p /\ fraction_below v p <= 1.
Proof.
  intro H. unfold fraction_below.
  assert (Hlen : 0 < inject_Z (Z.of_nat (length v))).
  { change 0 with (inject_Z 0). rewrite <- Zlt_Qlt.
    destruct v; [contradiction|]. simpl length. lia. }
  split.
  - apply Qle_shift_div_l; [exact Hlen|]. rewrite Qmult_0_l.
    change 0 with (inject_Z 0). rewrite <- Zle_Qle. lia.
  - apply Qle_shift_div_r; [exact Hlen|]. rewrite Qmult_1_l.
    rewrite <- Zle_Qle. pose proof (filter_length_le (fun r => Qltb r p) v).
    lia.
Qed.

Lemma fraction_below_mono (v : list Q) (p1 p2 : Q) :
  v <> [] -> p1 <= p2 -> fraction_below v p1 <= fraction_below v p2.
Proof.
  intros H Hp. unfold fraction_below.
  assert (Hlen : 0 < inject_Z (Z.of_nat (length v))).
  { change 0 with (inject_Z 0). rewrite <- Zlt_Qlt.
    destruct v; [contradiction|]. simpl length. lia. }
  unfold Qdiv. apply Qmult_le_compat_r.
  - rewrite <- Zle_Qle. apply inj_le. apply filter_length_mono.
    intros x Hx. apply Qltb_true_iff in Hx. apply Qltb_true_iff. lra.
  - apply Qlt_le_weak, Qinv_lt_0_compat. exact Hlen.
Qed.

(** C6: on a non-empty return series, [historical_var] returns the fraction
    of the values strictly below [var_p]; the result lies in [0, 1] and does
    not decrease when [var_p] increases. *)
Theorem historical_var_is_fraction_below (port_returns : list Q) :
  port_returns <> [] ->
  (forall var_p,
     exists h_var,
       historical_var port_returns var_p = Ok h_var
       /\ h_var = fraction_below port_returns var_p
       /\ 0 <= h_var /\ h_var <= 1)
  /\ (forall p1 p2 h1 h2,
        p1 <= p2 ->
        historical_var port_returns p1 = Ok h1 ->
        historical_var port_returns p2 = Ok h2 ->
        h1 <= h2).
Proof.
  intro H. split.
  - intro var_p. exists (fraction_below port_returns var_p).
    split; [apply historical_var_ok; exact H|].
    split; [reflexivity | apply fraction_below_bounds; exact H].
  - intros p1 p2 h1 h2 Hp E1 E2.
    rewrite historical_var_ok in E1, E2 by exact H.
    injection E1 as <-. injection E2 as <-.
    apply fraction_below_mono; assumption.
Qed.

(** ** Sharpe ratio and Expected Shortfall *)

Lemma np_div_zero_not_finite (x y : Q) :
  y == 0 -> is_finite (np_div x y) = false.
Proof.
  intro H. unfold np_div. rewrite (Qeq_eq_bool _ _ H).
  destruct (Qeq_bool x 0); [reflexivity|].
  destruct (Qle_bool x 0); reflexivity.
Qed.

Lemma np_div_finite (x y : Q) : ~ y == 0 -> np_div x y = Finite (x / y).
Proof.
  intro H. unfold np_div. rewrite (Qeq_bool_false _ _ H). reflexivity.
Qed.

Lemma np_sub_not_finite (x : np_float) (m : Q) :
  is_finite x = false -> is_finite (np_sub x m) = false.
Proof. destruct x; simpl; congruence. Qed.

Section SharpeProperties.

Variable np_sqrt : Q -> Q.

(** What the proofs use of the square root: it is zero at zero and
    positive on positive numbers. *)
Hypothesis np_sqrt_zero : forall x, x == 0 -> np_sqrt x == 0.
Hypothesis np_sqrt_pos : forall x, 0 < x -> 0 < np_sqrt x.

(** C7 (as the code has it): [sharpe_ratio] has no guard and never reports
    an error.  With a volatility of exactly zero it returns the quotient of
    numpy by zero, which is [inf], [-inf] or [nan]; with a volatility other
    than zero it returns (mean(port_returns) - risk_free_rate) divided by
    the square root of the volatility. *)
Theorem sharpe_ratio_has_no_guard (N T : nat)
    (port_returns : list Q) (risk_free_rate : Q)
    (asset_returns : list (list Q)) (weights : list Q) :
  is_matrix N T asset_returns ->
  (1 <= N)%nat ->
  (2 <= T)%nat ->
  let volatility := portfolio_volatility asset_returns weights in
  (volatility == 0 ->
   exists sr,
     sharpe_ratio np_sqrt port_returns risk_free_rate asset_returns weights
     = Ok sr
     /\ is_finite sr = false)
  /\ (~ volatility == 0 ->
      sharpe_ratio np_sqrt port_returns risk_free_rate asset_returns weights
      = Ok (Finite ((np_mean port_returns - risk_free_rate)
                    / np_sqrt volatility))).
Proof.
  intros Hm HN HT volatility. unfold sharpe_ratio. fold volatility. split.
  - intro Hz. eexists. split; [reflexivity|].
    apply np_div_zero_not_finite, np_sqrt_zero, Hz.
  - intro Hnz. rewrite np_div_finite; [reflexivity|].
    pose proof (portfolio_volatility_nonneg N T asset_returns weights
                  Hm HN HT) as Hge.
    fold volatility in Hge.
    assert (Hpos : 0 < volatility).
    { destruct (Qlt_le_dec 0 volatility) as [Hlt|Hle]; [exact Hlt|].
      exfalso. apply Hnz. lra. }
    pose proof (np_sqrt_pos volatility Hpos). lra.
Qed.

End SharpeProperties.

Section RiskProperties.

Variable np_sqrt : Q -> Q.
Variables norm_pdf norm_ppf : Q -> Q.
Variable norm_pdf_at : Q -> Q -> Q -> Q.
Variables t_pdf t_ppf : Z -> Q -> Q.
Variable quad_from_neg_inf : (Q -> Q) -> Q -> Q * Q.

(** C8 (as the code has it): [risk_metrics] validates nothing and returns
    its 9-tuple for every [d].  With [d = 1] the divisor [alpha * (d - 1)]
    is zero and the Expected Shortfall of the t-distribution is [inf],
    [-inf] or [nan]; with [d > 1] and [alpha] other than zero it is
    [t-density(t-quantile(alpha)) * sigma * (d + t-quantile(alpha)^2)]
    [/ (alpha * (d - 1)) - mu]. *)
Theorem risk_metrics_accepts_any_degrees_of_freedom
    (returns : list (list Q)) (weights : list Q) (var_p alpha : Q) (d : Z) :
  exists r,
    risk_metrics np_sqrt norm_pdf norm_ppf norm_pdf_at t_pdf t_ppf
                 quad_from_neg_inf returns weights var_p alpha d = Ok r
    /\ (d = 1%Z -> is_finite (rm_t_dist_es r) = false)
    /\ ((1 < d)%Z -> ~ alpha == 0 ->
        rm_t_dist_es r
        = Finite (t_pdf d (t_ppf d alpha) * rm_sigma r
                  * (inject_Z d + (t_ppf d alpha) ^ 2)
                  / (alpha * (inject_Z d - 1)) - rm_mu r)).
Proof.
  unfold risk_metrics.
  destruct (quad_from_neg_inf _ var_p) as [a_var a_var_error].
  destruct (quad_from_neg_inf _ var_p) as [t_dist_a_var t_dist_a_var_error].
  eexists. split; [reflexivity|]. simpl. split.
  - intros ->. apply np_sub_not_finite, np_div_zero_not_finite.
    change (inject_Z 1) with 1. ring.
  - intros Hd Ha. rewrite np_div_finite; [reflexivity|].
    assert (H : 2 <= inject_Z d).
    { change 2 with (inject_Z 2). rewrite <- Zle_Qle. lia. }
    intro E. apply Ha.
    assert (Hd1 : ~ inject_Z d - 1 == 0) by lra.
    destruct (Qmult_integral _ _ E); [assumption | contradiction].
Qed.

End RiskProperties.

(** ** The stand-in square root *)

Lemma heron_pos (x : Q) (steps : nat) :
  0 < x -> forall y, 0 < y -> 0 < heron x y steps.
Proof.
  intro Hx. induction steps as [|k IH]; intros y Hy; [exact Hy|].
  simpl. apply IH.
  assert (Hq : 0 < x / y).
  { apply Qlt_shift_div_l; [exact Hy|]. rewrite Qmult_0_l. exact Hx. }
  apply Qlt_shift_div_l; [reflexivity|]. lra.
Qed.

Lemma heron_sqrt_zero (x : Q) : x == 0 -> heron_sqrt x == 0.
Proof.
  intro H. unfold heron_sqrt.
  assert (E : Qle_bool x 0 = true) by (apply Qle_bool_iff; lra).
  rewrite E. reflexivity.
Defined.

Lemma heron_sqrt_pos (x : Q) : 0 < x -> 0 < heron_sqrt x.
Proof.
  intro H. unfold heron_sqrt.
  destruct (Qle_bool x 0) eqn:E.
  - apply Qle_bool_iff in E. lra.
  - rewrite Qred_correct. apply heron_pos; [exact H|].
    apply Qlt_shift_div_l; [reflexivity|]. lra.
Defined.

(** ** The scenarios of the specification *)

Example scenario_bond_periods : n scenario_bond = 20%Z.
Proof. reflexivity. Qed.

Example scenario_portfolio_returns :
  veq (portfolio_returns scenario_returns scenario_weights)
      [15 # 1000; -5 # 1000; 1 # 100; 1 # 100].
Proof. repeat constructor. Qed.

Example scenario_portfolio_volatility :
  portfolio_volatility scenario_returns scenario_weights == 3 # 40000.
Proof. reflexivity. Qed.

Lemma scenario_returns_matrix : is_matrix 2 4 scenario_returns.
Proof. split; [reflexivity | repeat constructor]. Defined.

Lemma constant_returns_matrix : is_matrix 2 3 constant_returns.
Proof. split; [reflexivity | repeat constructor]. Defined.

(** ** Witnesses and counterexamples *)

Lemma calculate_yields_selects_minimisers_witness :
  (1 <= n scenario_bond)%Z /\
  (is_yield_grid x1 /\
   exists c_ytm c_ytc,
     calculate_yields whole_power scenario_bond
     = Ok (inject_Z 2 * c_ytm, c_ytc, py_min (inject_Z 2 * c_ytm) c_ytc)
     /\ minimises (ytm_residual scenario_bond) x1 c_ytm
     /\ minimises (ytc_formula whole_power scenario_bond) x1 c_ytc).
Proof.
  split; [vm_compute; discriminate|].
  apply (calculate_yields_selects_minimisers whole_power 95 5 100 100 5 10 2).
  vm_compute; discriminate.
Defined.

Lemma portfolio_volatility_is_sample_variance_witness :
  length (portfolio_returns scenario_returns scenario_weights) = 4%nat /\
  portfolio_volatility scenario_returns scenario_weights
  == sample_variance (portfolio_returns scenario_returns scenario_weights).
Proof.
  apply (portfolio_volatility_is_sample_variance 2 4
           scenario_returns scenario_weights scenario_returns_matrix).
  - reflexivity.
  - repeat constructor.
  - repeat constructor.
Defined.

Lemma yield_to_worst_is_minimum_witness :
  exists ytm ytc ytw macaulay_duration modified_duration,
    calculate_bond_analytics whole_power scenario_bond
    = Ok (ytm, ytc, ytw, macaulay_duration, modified_duration)
    /\ ytw = Qmin ytm ytc.
Proof.
  exact (yield_to_worst_is_minimum whole_power scenario_bond
           scenario_bond_valid).
Defined.

Lemma modified_duration_relation_witness :
  exists macaulay_duration modified_duration,
    calculate_durations scenario_bond (283 # 5000)
    = Ok (macaulay_duration, modified_duration)
    /\ modified_duration
       == macaulay_duration
          / (1 + (283 # 5000) / inject_Z (num_coupon_periods scenario_bond))
    /\ (0 < (283 # 5000) / inject_Z (num_coupon_periods scenario_bond) ->
        modified_duration < macaulay_duration)
    /\ ((283 # 5000) == 0 -> modified_duration == macaulay_duration).
Proof.
  exact (modified_duration_relation scenario_bond (283 # 5000)
           scenario_bond_valid).
Defined.

Lemma historical_var_is_fraction_below_witness :
  (forall var_p,
     exists h_var,
       historical_var [15 # 1000; -5 # 1000; 1 # 100; 1 # 100] var_p = Ok h_var
       /\ h_var = fraction_below [15 # 1000; -5 # 1000; 1 # 100; 1 # 100] var_p
       /\ 0 <= h_var /\ h_var <= 1)
  /\ (forall p1 p2 h1 h2,
        p1 <= p2 ->
        historical_var [15 # 1000; -5 # 1000; 1 # 100; 1 # 100] p1 = Ok h1 ->
        historical_var [15 # 1000; -5 # 1000; 1 # 100; 1 # 100] p2 = Ok h2 ->
        h1 <= h2).
Proof.
  apply (historical_var_is_fraction_below
           [15 # 1000; -5 # 1000; 1 # 100; 1 # 100]).
  discriminate.
Defined.

Lemma calculate_yields_bounded_witness :
  exists ytm ytc ytw,
    calculate_yields whole_power scenario_bond = Ok (ytm, ytc, ytw)
    /\ ((1 # 10000) <= ytc /\ ytc <= (9999 # 10000))
    /\ ((1 # 10000) * inject_Z (num_coupon_periods scenario_bond) <= ytm
        /\ ytm <= (9999 # 10000) * inject_Z (num_coupon_periods scenario_bond))
    /\ 0 < ytm /\ 0 < ytc /\ 0 < ytw.
Proof.
  apply (calculate_yields_bounded whole_power scenario_bond).
  reflexivity.
Defined.

Lemma sharpe_ratio_has_no_guard_witness :
  (portfolio_volatility scenario_returns scenario_weights == 0 ->
   exists sr,
     sharpe_ratio heron_sqrt
       (portfolio_returns scenario_returns scenario_weights) (2 # 100)
       scenario_returns scenario_weights = Ok sr
     /\ is_finite sr = false)
  /\ (~ portfolio_volatility scenario_returns scenario_weights == 0 ->
      sharpe_ratio heron_sqrt
        (portfolio_returns scenario_returns scenario_weights) (2 # 100)
        scenario_returns scenario_weights
      = Ok (Finite
              ((np_mean (portfolio_returns scenario_returns scenario_weights)
                - (2 # 100))
               / heron_sqrt
                   (portfolio_volatility scenario_returns scenario_weights)))).
Proof.
  apply (sharpe_ratio_has_no_guard heron_sqrt heron_sqrt_zero heron_sqrt_pos
           2 4 (portfolio_returns scenario_returns scenario_weights) (2 # 100)
           scenario_returns scenario_weights scenario_returns_matrix).
  - repeat constructor.
  - repeat constructor.
Defined.

Lemma calculate_bond_analytics_validates_nothing_witness :
  (~ price negative_price_bond == 0 ->
   exists tuple,
     calculate_bond_analytics whole_power negative_price_bond = Ok tuple)
  /\ (price negative_price_bond == 0 ->
      calculate_bond_analytics whole_power negative_price_bond
      = Raise ZeroDivisionError).
Proof.
  apply (calculate_bond_analytics_validates_nothing whole_power
           negative_price_bond); vm_compute; discriminate.
Defined.

(** C7 fails as stated: the portfolio of [constant_returns] has a volatility
    of exactly zero, and [sharpe_ratio] reports no error for it, whatever the
    square root computes; with a square root that is zero at zero the value
    returned is [inf]. *)
Lemma zero_volatility_is_not_reported :
  portfolio_volatility constant_returns scenario_weights == 0
  /\ sharpe_ratio heron_sqrt
       (portfolio_returns constant_returns scenario_weights) (2 # 100)
       constant_returns scenario_weights = Ok PosInf
  /\ ~ (exists np_sqrt e,
          sharpe_ratio np_sqrt
            (portfolio_returns constant_returns scenario_weights) (2 # 100)
            constant_returns scenario_weights = Raise e).
Proof.
  split; [reflexivity|]. split; [reflexivity|].
  intros (np_sqrt & e & H). discriminate H.
Qed.

(** C8 fails as stated: with [d = 1] degree of freedom [risk_metrics]
    rejects nothing, whatever the library functions compute: on the
    scenario's returns, with [var_p = -0.09] and [alpha = 0.05], it raises no
    error. *)
Lemma one_degree_of_freedom_is_not_rejected :
  ~ (exists np_sqrt norm_pdf norm_ppf norm_pdf_at t_pdf t_ppf quad e,
       risk_metrics np_sqrt norm_pdf norm_ppf norm_pdf_at t_pdf t_ppf quad
         scenario_returns scenario_weights (-9 # 100) (5 # 100) 1 = Raise e).
Proof.
  intros (np_sqrt & norm_pdf & norm_ppf & norm_pdf_at & t_pdf & t_ppf & quad
          & e & H).
  unfold risk_metrics in H.
  destruct (quad _ (-9 # 100)) in H. destruct (quad _ (-9 # 100)) in H.
  discriminate H.
Qed.

(** C9 fails as stated: the bond quoted at the market price -95 is not
    rejected; the code returns a 5-tuple for it, whatever the power function
    computes. *)
Lemma negative_price_is_not_rejected :
  price negative_price_bond <= 0
  /\ (exists tuple,
        calculate_bond_analytics whole_power negative_price_bond = Ok tuple)
  /\ ~ (exists np_power e,
          calculate_bond_analytics np_power negative_price_bond = Raise e).
Proof.
  assert (H : forall np_power, exists tuple,
             calculate_bond_analytics np_power negative_price_bond = Ok tuple).
  { intro np_power.
    assert (Hn : (1 <= n negative_price_bond)%Z) by (vm_compute; discriminate).
    assert (Hncp : num_coupon_periods negative_price_bond <> 0%Z)
      by (vm_compute; discriminate).
    assert (Hi : ~ 1 + coupon negative_price_bond * (1 # 100) == 0)
      by (vm_compute; discriminate).
    assert (Hp : ~ price negative_price_bond == 0)
      by (vm_compute; discriminate).
    destruct (calculate_bond_analytics_ok np_power negative_price_bond
                Hn Hncp Hi Hp) as (ytm & ytc & mac & E & _).
    eexists. exact E. }
  split; [vm_compute; discriminate|]. split; [apply H|].
  intros (np_power & e & E). destruct (H np_power) as (tuple & E').
  rewrite E' in E. discriminate E.
Qed.

(** * Further properties of the code *)

(** ** When the bond analytics return *)

Lemma py_range_first (m : Z) :
  (1 <= m)%Z -> exists l, py_range 1 (m + 1) = 1%Z :: l.
Proof.
  intro Hm. unfold py_range.
  replace (Z.to_nat (m + 1 - 1)) with (S (Z.to_nat (m - 1))) by lia.
  simpl seq. simpl map. eexists. reflexivity.
Qed.

Lemma calculate_durations_zero_rate (b : Bond) (ytm : Q) :
  (1 <= n b)%Z ->
  1 + coupon b * (1 # 100) == 0 ->
  calculate_durations b ytm = Raise ZeroDivisionError.
Proof.
  intros Hn Hi. unfold calculate_durations.
  destruct (py_range_first (n b) Hn) as (l & El). rewrite El.
  simpl durations_loop. rewrite py_div_zero; [reflexivity|].
  rewrite Hi. reflexivity.
Qed.

Section OutcomeProperties.

Variable np_power : Q -> Q -> Q.

Lemma calculate_bond_analytics_zero_periods_per_year (b : Bond) :
  num_coupon_periods b = 0%Z ->
  calculate_bond_analytics np_power b = Raise ZeroDivisionError.
Proof.
  intro H. unfold calculate_bond_analytics.
  rewrite (calculate_yields_zero_periods np_power b H). reflexivity.
Qed.

Lemma calculate_bond_analytics_zero_rate (b : Bond) :
  num_coupon_periods b <> 0%Z ->
  (1 <= n b)%Z ->
  1 + coupon b * (1 # 100) == 0 ->
  calculate_bond_analytics np_power b = Raise ZeroDivisionError.
Proof.
  intros Hncp Hn Hi. unfold calculate_bond_analytics.
  destruct (calculate_yields_ok np_power b Hncp)
    as (r1 & r2 & _ & _ & Hret & _).
  rewrite Hret. unfold bind.
  rewrite (calculate_durations_zero_rate b _ Hn Hi). reflexivity.
Qed.

Lemma calculate_bond_analytics_unbound (b : Bond) :
  num_coupon_periods b <> 0%Z ->
  (n b <= 0)%Z ->
  calculate_bond_analytics np_power b = Raise UnboundLocalError.
Proof.
  intros Hncp Hn. unfold calculate_bond_analytics.
  destruct (calculate_yields_ok np_power b Hncp)
    as (r1 & r2 & _ & _ & Hret & _).
  rewrite Hret. unfold bind.
  rewrite (calculate_durations_no_periods b _ Hn). reflexivity.
Qed.



(** X2: the errors of degenerate bond terms.  With zero coupons per year the
    coupon division of [f_ytm] raises [ZeroDivisionError]; otherwise, with no
    remaining period the loop variable of [calculate_durations] is unbound
    and [UnboundLocalError] is raised, after the yields were computed; with
    a remaining period and a coupon rate of -100% the first discounting
    division raises [ZeroDivisionError]. *)
Theorem calculate_bond_analytics_errors (b : Bond) :
  (num_coupon_periods b = 0%Z ->
   calculate_bond_analytics np_power b = Raise ZeroDivisionError)
  /\ (num_coupon_periods b <> 0%Z -> (n b <= 0)%Z ->
      (exists yields, calculate_yields np_power b = Ok yields)
      /\ calculate_bond_analytics np_power b = Raise UnboundLocalError)
  /\ (num_coupon_periods b <> 0%Z -> (1 <= n b)%Z ->
      1 + coupon b * (1 # 100) == 0 ->
      calculate_bond_analytics np_power b = Raise ZeroDivisionError).
Proof.
  split; [apply calculate_bond_analytics_zero_periods_per_year|]. split.
  - intros Hncp Hn. split.
    + destruct (calculate_yields_ok np_power b Hncp)
        as (r1 & r2 & _ & _ & Hret & _).
      eexists. exact Hret.
    + apply calculate_bond_analytics_unbound; assumption.
  - apply calculate_bond_analytics_zero_rate.
Qed.

End OutcomeProperties.

Lemma py_int_small (x : Q) : 0 <= x -> x < 1 -> py_int x = 0%Z.
Proof.
  intros H0 H1. unfold py_int. destruct x as [p q]. apply Z.quot_small.
  unfold Qle, Qlt in *. cbn [Qnum Qden] in *.
  rewrite Z.mul_1_r in H0, H1. rewrite Z.mul_1_l in H1. rewrite Z.mul_0_l in H0.
  split; assumption.
Qed.

Lemma py_int_floor (x : Q) : 0 <= x -> py_int x = Qfloor x.
Proof.
  intro H. unfold py_int. destruct x as [p q]. simpl.
  apply Z.quot_div_nonneg; [|reflexivity].
  unfold Qle in H. simpl in H. lia.
Qed.

(** X3: [int()] in [Bond.__init__] truncates: for a non-negative product
    [years_to_maturity * num_coupon_periods] the field [n] is the number of
    whole periods, [n <= product < n + 1]; and a negative product is rounded
    toward zero, not down. *)
Theorem Bond_init_whole_periods
    (price coupon call_price face_value t years : Q) (ncp : Z) :
  let b := Bond_init price coupon call_price face_value t years ncp in
  let product := years * inject_Z ncp in
  (0 <= product ->
   inject_Z (n b) <= product /\ product < inject_Z (n b) + 1)
  /\ (product <= 0 ->
      product <= inject_Z (n b) /\ inject_Z (n b) - 1 < product).
Proof.
  intros b product. unfold b, Bond_init, n. fold product. split.
  - intro H. rewrite (py_int_floor product H). split.
    + apply Qfloor_le.
    + pose proof (Qlt_floor product) as Hlt.
      rewrite inject_Z_plus in Hlt. exact Hlt.
  - intro H.
    assert (Hneg : 0 <= - product) by lra.
    assert (E : py_int product = (- py_int (- product))%Z).
    { unfold py_int. destruct product as [p q]. simpl.
      rewrite Z.quot_opp_l by discriminate. lia. }
    rewrite E, (py_int_floor _ Hneg), inject_Z_opp.
    pose proof (Qfloor_le (- product)) as Hle.
    pose proof (Qlt_floor (- product)) as Hlt.
    rewrite inject_Z_plus in Hlt. change (inject_Z 1) with 1 in Hlt.
    split; lra.
Qed.

(** ** The candidates that the search selects *)

(** The grid is used through its lemmas from here on. *)
#[global] Opaque x1.

(** Every index before the selected one has a strictly larger absolute
    value: the loop replaces its choice on a strict improvement only. *)
Lemma pick_scan_first (ys : list Q) (k : nat) :
  let r := fold_left (pick ys) (seq 0 k) 0%nat in
  forall j, (j < r)%nat -> Qabs (nth r ys 0) < Qabs (nth j ys 0).
Proof.
  induction k as [|k IH].
  - simpl. intros j Hj. lia.
  - rewrite seq_S, fold_left_app. simpl fold_left.
    destruct (pick_scan ys k) as [Hr Hmin]. cbv zeta in IH.
    set (r := fold_left (pick ys) (seq 0 k) 0%nat) in *.
    unfold pick at 1. simpl plus.
    destruct (Qgtb (Qabs (nth r ys 0)) (Qabs (nth k ys 0))) eqn:E; cbv zeta.
    + apply Qgtb_true_iff in E. intros j Hj.
      apply Qlt_le_trans with (Qabs (nth r ys 0)); [exact E|].
      apply Hmin. exact Hj.
    + exact IH.
Qed.

Lemma x1_nth_lt (j r : nat) :
  (j < Z.to_nat 9999)%nat -> (r < Z.to_nat 9999)%nat ->
  nth j x1 0 < nth r x1 0 -> (j < r)%nat.
Proof.
  intros Hj Hr H. rewrite (x1_nth j Hj), (x1_nth r Hr) in H.
  assert (H' : inject_Z (Z.of_nat j) < inject_Z (Z.of_nat r)) by lra.
  rewrite <- Zlt_Qlt in H'. lia.
Qed.

(** The selected candidate is the lowest of the grid among those of least
    absolute residual. *)
Lemma pick_scan_grid_first (f : Q -> Q) :
  let r := fold_left (pick (map f x1)) (seq 0 (length x1)) 0%nat in
  forall y, In y x1 -> y < nth r x1 0 ->
    Qabs (f (nth r x1 0)) < Qabs (f y).
Proof.
  destruct (pick_scan_grid f) as [Hr _].
  pose proof (pick_scan_first (map f x1) (length x1)) as Hfirst.
  cbv zeta in *.
  revert Hr Hfirst.
  generalize (fold_left (pick (map f x1)) (seq 0 (length x1)) 0%nat).
  intros r Hr Hfirst y Hy Hlt.
  destruct (x1_In y Hy) as (j & Hj & ->).
  pose proof (x1_nth_lt j r Hj Hr Hlt) as Hjr.
  specialize (Hfirst j Hjr).
  rewrite !nth_map_default in Hfirst by (rewrite x1_length; assumption).
  exact Hfirst.
Qed.

Lemma scan_index_lt (f : Q -> Q) : (scan_index f < Z.to_nat 9999)%nat.
Proof. exact (proj1 (pick_scan_grid f)). Qed.

Lemma scan_index_first (f : Q -> Q) (y : Q) :
  In y x1 -> y < nth (scan_index f) x1 0 ->
  Qabs (f (nth (scan_index f) x1 0)) < Qabs (f y).
Proof. exact (pick_scan_grid_first f y). Qed.

Section SearchProperties.

Variable np_power : Q -> Q -> Q.

Lemma calculate_yields_indices (b : Bond) :
  num_coupon_periods b <> 0%Z ->
  calculate_yields np_power b
  = Ok (inject_Z (num_coupon_periods b)
        * nth (scan_index (ytm_residual b)) x1 0,
        nth (scan_index (ytc_formula np_power b)) x1 0,
        py_min (inject_Z (num_coupon_periods b)
                * nth (scan_index (ytm_residual b)) x1 0)
               (nth (scan_index (ytc_formula np_power b)) x1 0)).
Proof.
  intro Hncp. unfold calculate_yields, f_ytm, f_ytc.
  rewrite py_div_ok by (apply inject_Z_nonzero; exact Hncp).
  unfold bind. rewrite scan_fold, length_map. reflexivity.
Qed.

(** X4: ties go to the lowest yield.  The candidate that [calculate_yields]
    selects for a residual has a strictly smaller absolute residual than
    every lower candidate of the grid: the loop moves on a strict
    improvement only. *)
Theorem calculate_yields_selects_lowest_minimiser (b : Bond) :
  num_coupon_periods b <> 0%Z ->
  exists c_ytm c_ytc ytw,
    calculate_yields np_power b
    = Ok (inject_Z (num_coupon_periods b) * c_ytm, c_ytc, ytw)
    /\ (forall y, In y x1 -> y < c_ytm ->
        Qabs (ytm_residual b c_ytm) < Qabs (ytm_residual b y))
    /\ (forall y, In y x1 -> y < c_ytc ->
        Qabs (ytc_formula np_power b c_ytc) < Qabs (ytc_formula np_power b y)).
Proof.
  intro Hncp. eexists. eexists. eexists.
  split; [apply (calculate_yields_indices b Hncp)|].
  split; intros y Hy Hlt; apply scan_index_first; assumption.
Qed.

(** X5: the two searches do not interfere.  Two bonds with the same price,
    coupon and face value have the same YTM when they agree on the years to
    maturity and the coupons per year, whatever their call terms; and the
    same YTC when they agree on the call price and the years to the call,
    whatever their maturity and coupons per year. *)
Theorem yields_depend_on_their_own_terms
    (price coupon face_value : Q)
    (call_price1 t1 years1 : Q) (ncp1 : Z)
    (call_price2 t2 years2 : Q) (ncp2 : Z) :
  ncp1 <> 0%Z -> ncp2 <> 0%Z ->
  exists ytm1 ytc1 ytw1 ytm2 ytc2 ytw2,
    calculate_yields np_power
      (Bond_init price coupon call_price1 face_value t1 years1 ncp1)
    = Ok (ytm1, ytc1, ytw1)
    /\ calculate_yields np_power
         (Bond_init price coupon call_price2 face_value t2 years2 ncp2)
       = Ok (ytm2, ytc2, ytw2)
    /\ (years1 = years2 -> ncp1 = ncp2 -> ytm1 = ytm2)
    /\ (call_price1 = call_price2 -> t1 = t2 -> ytc1 = ytc2).
Proof.
  intros H1 H2.
  set (b1 := Bond_init price coupon call_price1 face_value t1 years1 ncp1).
  set (b2 := Bond_init price coupon call_price2 face_value t2 years2 ncp2).
  pose proof (calculate_yields_indices b1 H1) as E1.
  pose proof (calculate_yields_indices b2 H2) as E2.
  eexists. eexists. eexists. eexists. eexists. eexists.
  split; [exact E1|]. split; [exact E2|]. split.
  - intros -> ->. reflexivity.
  - intros -> ->. reflexivity.
Qed.

(** The 5-tuple of a bond in terms of the candidates of the grid. *)
Lemma calculate_bond_analytics_grid (b : Bond) :
  (1 <= n b)%Z ->
  num_coupon_periods b <> 0%Z ->
  ~ 1 + coupon b * (1 # 100) == 0 ->
  ~ price b == 0 ->
  exists c_ytm c_ytc mac,
    calculate_bond_analytics np_power b
    = Ok (inject_Z (num_coupon_periods b) * c_ytm, c_ytc,
          py_min (inject_Z (num_coupon_periods b) * c_ytm) c_ytc, mac,
          mac / (1 + inject_Z (num_coupon_periods b) * c_ytm
                     / inject_Z (num_coupon_periods b)))
    /\ (1 # 10000) <= c_ytm /\ c_ytm <= (9999 # 10000)
    /\ (1 # 10000) <= c_ytc /\ c_ytc <= (9999 # 10000)
    /\ mac == macaulay_formula b (annual_coupon b).
Proof.
  intros Hn Hncp Hi Hp. unfold calculate_bond_analytics.
  rewrite (calculate_yields_indices b Hncp). unfold bind.
  destruct (x1_nth_bounds _ (scan_index_lt (ytm_residual b))) as [Hl1 Hh1].
  destruct (x1_nth_bounds _ (scan_index_lt (ytc_formula np_power b)))
    as [Hl2 Hh2].
  destruct (calculate_durations_ok b
              (inject_Z (num_coupon_periods b)
               * nth (scan_index (ytm_residual b)) x1 0) Hn Hi Hp)
    as (mac & E & Hmac).
  rewrite E. eexists. eexists. exists mac.
  split; [reflexivity|]. repeat split; assumption.
Qed.

(** X6: in the 5-tuple of a valid bond the Modified Duration is positive and
    strictly below the Macaulay Duration (never equal to it: the YTM comes
    from a grid of positive yields), it equals the Macaulay Duration divided
    by one plus the periodic yield selected on the grid, and the Yield to
    Worst is positive and at most the YTM and the YTC. *)
Theorem valid_bond_analytics_ordering (b : Bond) :
  valid_bond b ->
  exists ytm ytc ytw macaulay_duration modified_duration,
    calculate_bond_analytics np_power b
    = Ok (ytm, ytc, ytw, macaulay_duration, modified_duration)
    /\ 0 < modified_duration
    /\ modified_duration < macaulay_duration
    /\ (macaulay_duration / (1 + (9999 # 10000)) <= modified_duration
        /\ modified_duration <= macaulay_duration / (1 + (1 # 10000)))
    /\ 0 < ytw /\ ytw <= ytm /\ ytw <= ytc.
Proof.
  intro Hv. pose proof (valid_bond_rate b Hv) as Hi.
  pose proof (macaulay_formula_pos b Hv) as Hpos.
  pose proof (vb_periods b Hv) as Hncp.
  destruct (calculate_bond_analytics_grid b)
    as (c1 & c2 & mac & E & Hl1 & Hh1 & Hl2 & Hh2 & Hmac).
  - apply Hv.
  - lia.
  - lra.
  - pose proof (vb_price b Hv). lra.
  - rewrite <- Hmac in Hpos.
    assert (Hp : 1 <= inject_Z (num_coupon_periods b)).
    { change 1 with (inject_Z 1). rewrite <- Zle_Qle. lia. }
    assert (Hper : inject_Z (num_coupon_periods b) * c1
                   / inject_Z (num_coupon_periods b) == c1)
      by (field; lra).
    assert (Hmod : mac / (1 + inject_Z (num_coupon_periods b) * c1
                              / inject_Z (num_coupon_periods b))
                   == mac / (1 + c1)) by (rewrite Hper; reflexivity).
    eexists. eexists. eexists. exists mac. eexists.
    split; [exact E|]. rewrite Hmod.
    assert (Hytm : 0 < inject_Z (num_coupon_periods b) * c1) by nra.
    split; [apply Qlt_shift_div_l; lra|].
    split; [apply Qlt_shift_div_r; [lra | nra]|].
    split.
    { split.
      - apply Qle_shift_div_l; [lra|].
        assert (H : mac / (1 + (9999 # 10000)) * (1 + c1)
                    == mac * ((1 + c1) / (1 + (9999 # 10000)))) by field.
        rewrite H.
        assert (H2 : (1 + c1) / (1 + (9999 # 10000)) <= 1)
          by (apply Qle_shift_div_r; lra).
        nra.
      - apply Qle_shift_div_r; [lra|].
        assert (H : mac / (1 + (1 # 10000)) * (1 + c1)
                    == mac * ((1 + c1) / (1 + (1 # 10000)))) by field.
        rewrite H.
        assert (H2 : 1 <= (1 + c1) / (1 + (1 # 10000)))
          by (apply Qle_shift_div_l; lra).
        nra. }
    rewrite py_min_Qmin.
    split; [apply Q.min_glb_lt; lra|].
    split; [apply Q.le_min_l | apply Q.le_min_r].
Qed.

(** X7: a bond with less than one whole coupon period left makes
    [calculate_bond_analytics] raise [UnboundLocalError]. *)
Theorem short_bond_raises_unbound_local
    (price coupon call_price face_value t years : Q) (ncp : Z) :
  ncp <> 0%Z ->
  0 <= years * inject_Z ncp ->
  years * inject_Z ncp < 1 ->
  calculate_bond_analytics np_power
    (Bond_init price coupon call_price face_value t years ncp)
  = Raise UnboundLocalError.
Proof.
  intros Hncp H0 H1. apply calculate_bond_analytics_unbound; [exact Hncp|].
  unfold Bond_init, n. rewrite (py_int_small _ H0 H1). lia.
Qed.

End SearchProperties.

(** ** The Macaulay Duration in closed form *)

Lemma py_range_snoc (m : Z) :
  (1 <= m)%Z -> py_range 1 (m + 1) = py_range 1 m ++ [m].
Proof.
  intro Hm. unfold py_range.
  replace (Z.to_nat (m + 1 - 1)) with (S (Z.to_nat (m - 1))) by lia.
  rewrite seq_S, map_app. f_equal. unfold map. f_equal. lia.
Qed.

Lemma np_sum_app (u v : list Q) : np_sum (u ++ v) == np_sum u + np_sum v.
Proof.
  induction u as [|a u IH].
  - simpl app. change (np_sum []) with 0. ring.
  - simpl app. rewrite !np_sum_cons, IH. ring.
Qed.

Lemma summation_zero (f : Z -> Q) : summation 0 f == 0.
Proof. reflexivity. Qed.

Lemma summation_succ (m : Z) (f : Z -> Q) :
  (0 <= m)%Z -> summation (m + 1) f == summation m f + f (m + 1)%Z.
Proof.
  intro Hm. unfold summation. rewrite (py_range_snoc (m + 1)) by lia.
  rewrite map_app, np_sum_app. simpl map. rewrite np_sum_cons.
  change (np_sum []) with 0. ring.
Qed.

Lemma summation_ext (m : Z) (f g : Z -> Q) :
  (forall k, (1 <= k <= m)%Z -> f k == g k) ->
  summation m f == summation m g.
Proof.
  intro H. unfold summation.
  assert (Hin : forall k, In k (py_range 1 (m + 1)) -> f k == g k).
  { intros k Hk. apply py_range_In in Hk. apply H. lia. }
  revert Hin. generalize (py_range 1 (m + 1)). intro l.
  induction l as [|k l IH]; intro Hin; [reflexivity|].
  simpl map. rewrite !np_sum_cons.
  rewrite (Hin k) by (left; reflexivity).
  rewrite IH by (intros j Hj; apply Hin; right; exact Hj).
  reflexivity.
Qed.

Lemma summation_ones (m : Z) :
  (0 <= m)%Z -> summation m (fun _ => 1) == inject_Z m.
Proof.
  revert m. apply natlike_ind.
  - reflexivity.
  - intros m Hm IH. unfold Z.succ. rewrite summation_succ by exact Hm.
    rewrite IH, inject_Z_plus. reflexivity.
Qed.

(** With the annual coupon [i * F] the discounted coupons and the
    discounted face value telescope into a geometric sum. *)
Lemma macaulay_numerator_closed (i F : Q) (m : Z) :
  ~ 1 + i == 0 -> (0 <= m)%Z ->
  summation m (fun k => inject_Z k * (i * F) / (1 + i) ^ k)
  + inject_Z m * F / (1 + i) ^ m
  == F * discount_sum i m.
Proof.
  intro Hi. revert m. apply natlike_ind.
  - unfold discount_sum. rewrite !summation_zero. simpl. field.
  - intros m Hm IH. unfold Z.succ, discount_sum in *.
    rewrite !summation_succ by exact Hm.
    replace (m + 1 - 1)%Z with m by lia.
    assert (Hp : ~ (1 + i) ^ m == 0) by (apply Qpower_not_0; exact Hi).
    rewrite (Qpower_plus (1 + i) m 1 Hi), Qpower_1_r, inject_Z_plus.
    change (inject_Z 1) with 1.
    set (S := summation m (fun k => inject_Z k * (i * F) / (1 + i) ^ k)) in *.
    set (D := summation m (fun k => / (1 + i) ^ (k - 1))) in *.
    set (p := (1 + i) ^ m) in *.
    assert (HS : S == F * D - inject_Z m * F / p)
      by (rewrite <- IH; field; exact Hp).
    rewrite HS. field. split; assumption.
Qed.

(** X8: the Macaulay Duration that [calculate_durations] returns is
    [face_value / price] times the geometric sum
    [sum_{k=0}^{n-1} 1 / (1 + i)^k], [i] being the coupon rate as a fraction:
    the coupon amount enters through the rate alone. *)
Theorem macaulay_duration_closed_form (b : Bond) (ytm : Q) :
  (1 <= n b)%Z ->
  ~ 1 + coupon b * (1 # 100) == 0 ->
  ~ price b == 0 ->
  exists macaulay_duration modified_duration,
    calculate_durations b ytm = Ok (macaulay_duration, modified_duration)
    /\ macaulay_duration
       == face_value b / price b * discount_sum (coupon b * (1 # 100)) (n b).
Proof.
  intros Hn Hi Hp.
  destruct (calculate_durations_ok b ytm Hn Hi Hp) as (mac & E & Hmac).
  exists mac. eexists. split; [exact E|].
  rewrite Hmac. unfold macaulay_formula, annual_coupon.
  rewrite (macaulay_numerator_closed (coupon b * (1 # 100)) (face_value b)
             (n b) Hi) by lia.
  field. exact Hp.
Qed.

(** X9: for a bond without coupons the Macaulay Duration returned is
    [n * face_value / price]. *)
Theorem zero_coupon_macaulay_duration (b : Bond) (ytm : Q) :
  (1 <= n b)%Z ->
  coupon b == 0 ->
  ~ price b == 0 ->
  exists macaulay_duration modified_duration,
    calculate_durations b ytm = Ok (macaulay_duration, modified_duration)
    /\ macaulay_duration == inject_Z (n b) * face_value b / price b.
Proof.
  intros Hn Hc Hp.
  assert (Hi : ~ 1 + coupon b * (1 # 100) == 0) by (rewrite Hc; discriminate).
  destruct (calculate_durations_ok b ytm Hn Hi Hp) as (mac & E & Hmac).
  exists mac. eexists. split; [exact E|].
  rewrite Hmac. unfold macaulay_formula, annual_coupon.
  rewrite (macaulay_numerator_closed (coupon b * (1 # 100)) (face_value b)
             (n b) Hi) by lia.
  unfold discount_sum.
  rewrite (summation_ext (n b) _ (fun _ => 1)).
  - rewrite summation_ones by lia. field. exact Hp.
  - intros k Hk. rewrite Hc.
    setoid_replace (1 + 0 * (1 # 100)) with 1 by ring.
    rewrite Qpower_1. reflexivity.
Qed.

(** ** The portfolio as a function of the weights and of the returns *)

#[local] Instance vscale_veq : Proper (Qeq ==> veq ==> veq) vscale.
Proof.
  intros a a' Ha u u' Hu. induction Hu as [|x x' u u' Hx _ IH]; constructor.
  - rewrite Ha, Hx. reflexivity.
  - exact IH.
Qed.

Lemma vscale_zeros (c : Q) (T : nat) : veq (vscale c (repeat 0 T)) (repeat 0 T).
Proof.
  induction T as [|T IH]; constructor; [ring | exact IH].
Qed.

Lemma vscale_combination (c a : Q) (r p : list Q) :
  veq (vadd (vscale (c * a) r) (vscale c p)) (vscale c (vadd (vscale a r) p)).
Proof.
  revert p. induction r as [|x r IH]; intros [|y p]; try constructor.
  - ring.
  - apply IH.
Qed.

Lemma lincomb_vscale (T : nat) (c : Q) (w : list Q) (m : list (list Q)) :
  veq (lincomb T (vscale c w) m) (vscale c (lincomb T w m)).
Proof.
  revert m. induction w as [|a w IH]; intros [|row m]; simpl;
    try (symmetry; apply vscale_zeros).
  rewrite IH. apply vscale_combination.
Qed.

Lemma dot1_vscale_both (c : Q) (u v : list Q) :
  dot1 (vscale c u) (vscale c v) == c * c * dot1 u v.
Proof.
  rewrite dot1_vscale_l, (dot1_comm u (vscale c v)), dot1_vscale_l,
    (dot1_comm v u). ring.
Qed.

(** X10: the volatility is quadratic in the weights: scaling every weight by
    [c] scales the volatility by [c * c]; in particular the weights and their
    opposites have the same volatility. *)
Theorem portfolio_volatility_quadratic (N T : nat)
    (returns : list (list Q)) (weights : list Q) (c : Q) :
  is_matrix N T returns ->
  (1 <= N)%nat ->
  portfolio_volatility returns (vscale c weights)
  == c * c * portfolio_volatility returns weights.
Proof.
  intros Hm HN.
  rewrite (portfolio_volatility_centered N T returns (vscale c weights) Hm HN).
  rewrite (portfolio_volatility_centered N T returns weights Hm HN).
  cbv zeta. rewrite lincomb_vscale, dot1_vscale_both. ring.
Qed.

Lemma dot1_self_zero (u : list Q) :
  dot1 u u == 0 <-> Forall (fun x => x == 0) u.
Proof.
  induction u as [|a u IH].
  - split; [constructor | reflexivity].
  - rewrite dot1_cons. pose proof (dot1_self_nonneg u) as Hu. split.
    + intro H. assert (Ha : a * a == 0) by nra.
      assert (Hd : dot1 u u == 0) by nra.
      constructor; [|apply IH; exact Hd].
      destruct (Qmult_integral _ _ Ha); assumption.
    + intro H. inversion H as [|x l Ha Hl]; subst.
      apply IH in Hl. rewrite Ha, Hl. ring.
Qed.

Lemma Forall_zero_veq (u v : list Q) :
  veq u v -> Forall (fun x => x == 0) u -> Forall (fun x => x == 0) v.
Proof.
  induction 1 as [|a b u v Hab _ IH]; intro H; [constructor|].
  inversion H; subst. constructor; [rewrite <- Hab; assumption | auto].
Qed.

Lemma center_zero_iff (p : list Q) :
  Forall (fun x => x == 0) (center p) <-> Forall (fun x => x == np_mean p) p.
Proof.
  unfold center. generalize (np_mean p). intro m.
  induction p as [|a p IH]; simpl.
  - split; constructor.
  - split; intro H; inversion H; subst; constructor;
      try (apply IH; assumption); lra.
Qed.

(** X11: the volatility is never negative, and it is zero exactly when the
    weighted return series is constant (every value equal to its mean). *)
Theorem portfolio_volatility_zero_iff_constant (N T : nat)
    (returns : list (list Q)) (weights : list Q) :
  is_matrix N T returns ->
  (1 <= N)%nat ->
  (2 <= T)%nat ->
  let p := portfolio_returns returns weights in
  0 <= portfolio_volatility returns weights
  /\ (portfolio_volatility returns weights == 0
      <-> Forall (fun x => x == np_mean p) p).
Proof.
  intros Hm HN HT p.
  pose proof (portfolio_volatility_centered N T returns weights Hm HN) as Hv.
  cbv zeta in Hv.
  assert (Hc : veq (center p) (lincomb T weights (map center returns))).
  { unfold p, portfolio_returns, np_dot.
    rewrite (shape1_matrix N T returns Hm HN).
    apply center_lincomb, Hm. }
  rewrite <- Hc in Hv.
  assert (Hg : 0 < 1 / (inject_Z (Z.of_nat T) - 1)).
  { assert (H : 2 <= inject_Z (Z.of_nat T)).
    { change 2 with (inject_Z 2). rewrite <- Zle_Qle. lia. }
    apply Qlt_shift_div_l; lra. }
  pose proof (dot1_self_nonneg (center p)) as Hd.
  split; [rewrite Hv; nra|].
  rewrite <- center_zero_iff, <- dot1_self_zero. rewrite Hv. split; intro H.
  - destruct (Qmult_integral _ _ H) as [H0|H0]; [exact H0 | lra].
  - rewrite H. ring.
Qed.

Lemma np_mean_shift (c : Q) (row : list Q) :
  row <> [] -> np_mean (map (fun x => x + c) row) == np_mean row + c.
Proof.
  intro Hne. unfold np_mean. rewrite length_map.
  assert (Hs : np_sum (map (fun x => x + c) row)
               == np_sum row + inject_Z (Z.of_nat (length row)) * c).
  { clear Hne. induction row as [|a row IH].
    - simpl. change (np_sum []) with 0. ring.
    - simpl map. rewrite !np_sum_cons, IH. simpl length.
      rewrite Nat2Z.inj_succ. unfold Z.succ. rewrite inject_Z_plus.
      change (inject_Z 1) with 1. ring. }
  rewrite Hs. field. apply inject_Z_nonzero.
  destruct row; [contradiction | simpl; lia].
Qed.

(** Centring forgets a constant added to a row. *)
Lemma center_shift (c : Q) (row : list Q) :
  veq (center (map (fun x => x + c) row)) (center row).
Proof.
  destruct row as [|a row]; [constructor|].
  unfold center. rewrite map_map. apply veq_map. intros x _.
  rewrite np_mean_shift by discriminate. ring.
Qed.

Lemma lincomb_rows_veq (T : nat) (w : list Q) (m m' : list (list Q)) :
  Forall2 veq m m' -> veq (lincomb T w m) (lincomb T w m').
Proof.
  intro H. revert w. induction H as [|row row' m m' Hrow _ IH]; intros [|a w];
    simpl; try reflexivity.
  rewrite Hrow, IH. reflexivity.
Qed.

Lemma center_shift_rows (shifts : list Q) (m : list (list Q)) :
  length shifts = length m ->
  Forall2 veq (map center (shift_rows shifts m)) (map center m).
Proof.
  revert m. induction shifts as [|c shifts IH]; intros [|row m] H;
    simpl in *; try discriminate; constructor.
  - apply center_shift.
  - apply IH. congruence.
Qed.

Lemma shift_rows_matrix (N T : nat) (shifts : list Q) (m : list (list Q)) :
  is_matrix N T m -> length shifts = N -> is_matrix N T (shift_rows shifts m).
Proof.
  intros [HN Hrows] Hs. subst N. revert shifts Hs.
  induction Hrows as [|row m Hrow _ IH]; intros [|c shifts] Hs;
    simpl in *; try discriminate.
  - split; [reflexivity | constructor].
  - destruct (IH shifts) as [Hlen Hall]; [congruence|].
    split; [simpl; congruence|].
    constructor; [rewrite length_map; exact Hrow | exact Hall].
Qed.

(** X12: the volatility looks at the deviations from the mean only: adding a
    constant to all the returns of an asset, a different one for each asset,
    leaves it unchanged. *)
Theorem portfolio_volatility_shift_invariant (N T : nat)
    (returns : list (list Q)) (weights shifts : list Q) :
  is_matrix N T returns ->
  length shifts = N ->
  (1 <= N)%nat ->
  portfolio_volatility (shift_rows shifts returns) weights
  == portfolio_volatility returns weights.
Proof.
  intros Hm Hs HN.
  rewrite (portfolio_volatility_centered N T (shift_rows shifts returns)
             weights (shift_rows_matrix N T shifts returns Hm Hs) HN).
  rewrite (portfolio_volatility_centered N T returns weights Hm HN).
  cbv zeta.
  rewrite (lincomb_rows_veq T weights _ _
             (center_shift_rows shifts returns
                (eq_trans Hs (eq_sym (proj1 Hm))))).
  reflexivity.
Qed.

Lemma np_sum_lincomb (T : nat) (w : list Q) (m : list (list Q)) :
  Forall (fun row => length row = T) m ->
  np_sum (lincomb T w m) == dot1 w (map np_sum m).
Proof.
  intro H. revert w. induction H as [|row m Hrow Hm IH]; intros [|a w];
    simpl; try apply np_sum_zeros.
  rewrite np_sum_vadd by (rewrite vscale_length, lincomb_length; assumption).
  rewrite np_sum_vscale, IH, dot1_cons. reflexivity.
Qed.

Lemma dot1_row_means (T : nat) (w : list Q) (m : list (list Q)) :
  Forall (fun row => length row = T) m ->
  dot1 w (map np_sum m) / inject_Z (Z.of_nat T) == dot1 w (map np_mean m).
Proof.
  intro H. revert w. induction H as [|row m Hrow Hm IH]; intros [|a w];
    simpl map; rewrite ?dot1_nil_r;
    try (change (dot1 [] _) with 0); try (unfold Qdiv; ring).
  rewrite !dot1_cons, <- IH. unfold np_mean. rewrite Hrow.
  unfold Qdiv. ring.
Qed.

Lemma zeros_combination (a : Q) (T : nat) :
  veq (repeat 0 T) (vadd (vscale a (repeat 0 T)) (repeat 0 T)).
Proof.
  induction T as [|T IH]; constructor; [ring | exact IH].
Qed.

Lemma rows_combination (a x y : Q) (row P P' : list Q) :
  veq (vadd (vscale (a * x + y) row) (vadd (vscale a P) P'))
      (vadd (vscale a (vadd (vscale x row) P)) (vadd (vscale y row) P')).
Proof.
  revert P P'. induction row as [|r row IH]; intros [|p P] [|p' P'];
    try constructor.
  - ring.
  - apply IH.
Qed.

Lemma lincomb_cons (T : nat) (a : Q) (w row : list Q) (m : list (list Q)) :
  lincomb T (a :: w) (row :: m) = vadd (vscale a row) (lincomb T w m).
Proof. reflexivity. Qed.

Lemma lincomb_combination (T : nat) (a : Q) (w w' : list Q)
    (m : list (list Q)) :
  length w = length m -> length w' = length m ->
  veq (lincomb T (vadd (vscale a w) w') m)
      (vadd (vscale a (lincomb T w m)) (lincomb T w' m)).
Proof.
  revert w w'. induction m as [|row m IH]; intros [|x w] [|y w'] Hw Hw';
    simpl in Hw, Hw'; try discriminate.
  - simpl. apply zeros_combination.
  - rewrite vscale_cons, vadd_cons, !lincomb_cons.
    rewrite IH by congruence.
    apply rows_combination.
Qed.

(** X13: [portfolio_returns] is linear in the weights: the series of the
    weights [a * w + w'] is [a] times the series of [w] plus the series of
    [w'], and every series has the length [T] of the rows. *)
Theorem portfolio_returns_linear (N T : nat)
    (returns : list (list Q)) (w w' : list Q) (a : Q) :
  is_matrix N T returns ->
  length w = N ->
  length w' = N ->
  (1 <= N)%nat ->
  length (portfolio_returns returns w) = T
  /\ veq (portfolio_returns returns (vadd (vscale a w) w'))
         (vadd (vscale a (portfolio_returns returns w))
               (portfolio_returns returns w')).
Proof.
  intros Hm Hw Hw' HN. unfold portfolio_returns, np_dot.
  rewrite (shape1_matrix N T returns Hm HN). split.
  - apply lincomb_length, Hm.
  - apply lincomb_combination; destruct Hm; congruence.
Qed.

(** ** More on the risk metrics *)

Section MoreRiskProperties.

Variable np_sqrt : Q -> Q.
Variables norm_pdf norm_ppf : Q -> Q.
Variable norm_pdf_at : Q -> Q -> Q -> Q.
Variables t_pdf t_ppf : Z -> Q -> Q.
Variable quad_from_neg_inf : (Q -> Q) -> Q -> Q * Q.

(** X14: the mean return [mu] that [risk_metrics] reports is the average of
    the mean returns of the assets, weighted by the portfolio weights, and
    its variance is the volatility of the portfolio. *)
Theorem risk_metrics_mean_is_weighted_mean (N T : nat)
    (returns : list (list Q)) (weights : list Q) (var_p alpha : Q) (d : Z) :
  is_matrix N T returns ->
  (1 <= N)%nat ->
  exists r,
    risk_metrics np_sqrt norm_pdf norm_ppf norm_pdf_at t_pdf t_ppf
                 quad_from_neg_inf returns weights var_p alpha d = Ok r
    /\ rm_mu r == dot1 weights (map np_mean returns)
    /\ rm_var r = portfolio_volatility returns weights.
Proof.
  intros Hm HN. unfold risk_metrics.
  destruct (quad_from_neg_inf _ var_p) as [a_var a_var_error].
  destruct (quad_from_neg_inf _ var_p) as [t_dist_a_var t_dist_a_var_error].
  eexists. split; [reflexivity|]. simpl. split; [|reflexivity].
  unfold portfolio_returns, np_dot.
  rewrite (shape1_matrix N T returns Hm HN).
  rewrite np_sum_lincomb by apply Hm.
  apply dot1_row_means, Hm.
Qed.

(** X15: the level [alpha] is not validated either: with [alpha = 0] both
    Expected Shortfalls are divisions by zero, and [risk_metrics] returns
    them as [inf], [-inf] or [nan] without an error. *)
Theorem risk_metrics_zero_level
    (returns : list (list Q)) (weights : list Q) (var_p alpha : Q) (d : Z) :
  alpha == 0 ->
  exists r,
    risk_metrics np_sqrt norm_pdf norm_ppf norm_pdf_at t_pdf t_ppf
                 quad_from_neg_inf returns weights var_p alpha d = Ok r
    /\ is_finite (rm_es r) = false
    /\ is_finite (rm_t_dist_es r) = false.
Proof.
  intro Ha. unfold risk_metrics.
  destruct (quad_from_neg_inf _ var_p) as [a_var a_var_error].
  destruct (quad_from_neg_inf _ var_p) as [t_dist_a_var t_dist_a_var_error].
  eexists. split; [reflexivity|]. simpl. split.
  - apply np_sub_not_finite, np_div_zero_not_finite. exact Ha.
  - apply np_sub_not_finite, np_div_zero_not_finite. rewrite Ha. ring.
Qed.

End MoreRiskProperties.

(** ** Tracking error *)

Lemma np_mean_zero_terms (f : Q -> Q) (x : list Q) :
  Forall (fun v => f v == 0) x -> np_mean (map f x) == 0.
Proof.
  intro H. unfold np_mean.
  assert (Hs : np_sum (map f x) == 0).
  { induction H as [|v x Hv _ IH]; [reflexivity|].
    simpl map. rewrite np_sum_cons, Hv, IH. ring. }
  rewrite Hs. unfold Qdiv. ring.
Qed.

Lemma np_mean_constant (c : Q) (x : list Q) :
  x <> [] -> Forall (fun v => v == c) x -> np_mean x == c.
Proof.
  intros Hne H. unfold np_mean.
  assert (Hs : np_sum x == inject_Z (Z.of_nat (length x)) * c).
  { clear Hne. induction H as [|v x Hv _ IH].
    - change (np_sum []) with 0. simpl. ring.
    - simpl length. rewrite Nat2Z.inj_succ. unfold Z.succ.
      rewrite inject_Z_plus. change (inject_Z 1) with 1.
      rewrite np_sum_cons, Hv, IH. ring. }
  rewrite Hs. field. apply inject_Z_nonzero.
  destruct x; [contradiction | simpl; lia].
Qed.

Lemma difference_of_shift (c : Q) (market : list Q) :
  Forall (fun v => v == c)
         (zip_with Qminus (map (fun m => m + c) market) market).
Proof.
  induction market as [|m market IH]; simpl; constructor; [ring | exact IH].
Qed.

Section TrackingProperties.

Variable np_sqrt : Q -> Q.
Hypothesis np_sqrt_zero : forall x, x == 0 -> np_sqrt x == 0.

(** X16: a portfolio that beats (or trails) the benchmark by the same amount
    every day has a tracking error of zero: the tracking error measures the
    dispersion of the differences, not their size. *)
Theorem tracking_error_of_constant_spread (market_returns : list Q) (c : Q) :
  tracking_error np_sqrt (map (fun m => m + c) market_returns) market_returns
  == 0.
Proof.
  unfold tracking_error, np_std. apply np_sqrt_zero.
  pose proof (difference_of_shift c market_returns) as Hd.
  set (x := zip_with Qminus _ market_returns) in *.
  apply np_mean_zero_terms.
  destruct x as [|v x]; [constructor|].
  assert (Hmean : np_mean (v :: x) == c)
    by (apply np_mean_constant; [discriminate | exact Hd]).
  eapply Forall_impl; [|exact Hd].
  intros y Hy. cbv beta. rewrite Hmean, Hy.
  setoid_replace (c - c) with 0 by ring. reflexivity.
Qed.

End TrackingProperties.

(** ** More on the historical VaR *)

Lemma filter_length_zero {A : Type} (f : A -> bool) (l : list A) :
  length (filter f l) = 0%nat <-> Forall (fun x => f x = false) l.
Proof.
  induction l as [|a l IH]; simpl.
  - split; [constructor | reflexivity].
  - destruct (f a) eqn:E; simpl; split; intro H.
    + discriminate.
    + inversion H; congruence.
    + constructor; [exact E | apply IH; exact H].
    + inversion H; subst. apply IH. assumption.
Qed.

Lemma filter_length_full {A : Type} (f : A -> bool) (l : list A) :
  length (filter f l) = length l <-> Forall (fun x => f x = true) l.
Proof.
  induction l as [|a l IH]; simpl.
  - split; [constructor | reflexivity].
  - pose proof (filter_length_le f l) as Hle.
    destruct (f a) eqn:E; simpl; split; intro H.
    + constructor; [exact E | apply IH; lia].
    + inversion H; subst. f_equal. apply IH. assumption.
    + lia.
    + inversion H; congruence.
Qed.

(** X17: [historical_var] raises [ZeroDivisionError] exactly on the empty
    series, and returns a number on every other series. *)
Theorem historical_var_raises_iff_empty (port_returns : list Q) (var_p : Q) :
  (historical_var port_returns var_p = Raise ZeroDivisionError
   <-> port_returns = [])
  /\ ((exists h_var, historical_var port_returns var_p = Ok h_var)
      <-> port_returns <> []).
Proof.
  destruct port_returns as [|r rs].
  - split; split; intro H; try reflexivity.
    + destruct H as (h & E). discriminate E.
    + contradiction.
  - assert (E : historical_var (r :: rs) var_p
                = Ok (fraction_below (r :: rs) var_p))
      by (apply historical_var_ok; discriminate).
    rewrite E. split; split; intro H; try discriminate.
    eexists. reflexivity.
Qed.

Lemma fraction_below_zero_iff (v : list Q) (p : Q) :
  v <> [] ->
  fraction_below v p == 0
  <-> length (filter (fun r => Qltb r p) v) = 0%nat.
Proof.
  intro Hne. unfold fraction_below.
  set (k := length (filter (fun r => Qltb r p) v)).
  assert (Hlen : ~ inject_Z (Z.of_nat (length v)) == 0).
  { apply inject_Z_nonzero. destruct v; [contradiction | simpl; lia]. }
  split; intro H.
  - assert (H0 : inject_Z (Z.of_nat k) == 0).
    { setoid_replace (inject_Z (Z.of_nat k))
        with (inject_Z (Z.of_nat k) / inject_Z (Z.of_nat (length v))
              * inject_Z (Z.of_nat (length v))) by (field; exact Hlen).
      rewrite H. ring. }
    unfold Qeq in H0. simpl in H0. lia.
  - rewrite H. unfold Qdiv. simpl. ring.
Qed.

Lemma fraction_below_one_iff (v : list Q) (p : Q) :
  v <> [] ->
  fraction_below v p == 1
  <-> length (filter (fun r => Qltb r p) v) = length v.
Proof.
  intro Hne. unfold fraction_below.
  set (k := length (filter (fun r => Qltb r p) v)).
  assert (Hlen : ~ inject_Z (Z.of_nat (length v)) == 0).
  { apply inject_Z_nonzero. destruct v; [contradiction | simpl; lia]. }
  split; intro H.
  - assert (H0 : inject_Z (Z.of_nat k) == inject_Z (Z.of_nat (length v))).
    { setoid_replace (inject_Z (Z.of_nat k))
        with (inject_Z (Z.of_nat k) / inject_Z (Z.of_nat (length v))
              * inject_Z (Z.of_nat (length v))) by (field; exact Hlen).
      rewrite H. ring. }
    unfold Qeq in H0. simpl in H0. lia.
  - rewrite H. field. exact Hlen.
Qed.

(** X18: the comparison with the cutoff is strict.  On a non-empty series
    the Historical VaR is zero exactly when no return is below [var_p]
    (returns equal to [var_p] do not count), and one exactly when every
    return is strictly below [var_p]. *)
Theorem historical_var_extremes (port_returns : list Q) (var_p : Q) :
  port_returns <> [] ->
  exists h_var,
    historical_var port_returns var_p = Ok h_var
    /\ (h_var == 0 <-> Forall (fun r => var_p <= r) port_returns)
    /\ (h_var == 1 <-> Forall (fun r => r < var_p) port_returns).
Proof.
  intro Hne. exists (fraction_below port_returns var_p).
  split; [apply historical_var_ok; exact Hne|].
  split.
  - rewrite (fraction_below_zero_iff port_returns var_p Hne).
    rewrite filter_length_zero. split; intro H;
      (eapply Forall_impl; [|exact H]); intros r Hr; cbv beta in *.
    + apply Qgtb_false_iff in Hr. exact Hr.
    + apply Qgtb_false_iff. exact Hr.
  - rewrite (fraction_below_one_iff port_returns var_p Hne).
    rewrite filter_length_full. split; intro H;
      (eapply Forall_impl; [|exact H]); intros r Hr; cbv beta in *.
    + apply Qltb_true_iff. exact Hr.
    + apply Qltb_true_iff. exact Hr.
Qed.

(** ** The frame of returns, transposed *)

Lemma append_loop {A : Type} (f : nat -> A) (l : list nat) (init : list A) :
  fold_left (fun array i => array ++ [f i]) l init = init ++ map f l.
Proof.
  revert init. induction l as [|i l IH]; intro init; simpl.
  - symmetry. apply app_nil_r.
  - rewrite IH, <- app_assoc. reflexivity.
Qed.

Lemma get_data_columns (data : list (list Q)) :
  get_data data = map (column data) (seq 0 (shape1 data)).
Proof.
  unfold get_data. cbv zeta.
  exact (append_loop (column data) (seq 0 (shape1 data)) []).
Qed.

Lemma column_length (data : list (list Q)) (i : nat) :
  length (column data i) = length data.
Proof. apply length_map. Qed.

Lemma column_nth (data : list (list Q)) (i j : nat) :
  (j < length data)%nat ->
  nth j (column data i) 0 = nth i (nth j data []) 0.
Proof.
  intro Hj. unfold column.
  rewrite (nth_indep _ 0 ((fun row => nth i row 0) [])) by
    (rewrite length_map; exact Hj).
  apply (map_nth (fun row => nth i row 0)).
Qed.

Lemma get_data_nth (data : list (list Q)) (i : nat) :
  (i < shape1 data)%nat -> nth i (get_data data) [] = column data i.
Proof.
  intro Hi. rewrite get_data_columns.
  rewrite (nth_indep _ [] (column data 0))
    by (rewrite length_map, length_seq; exact Hi).
  rewrite map_nth, seq_nth by exact Hi. reflexivity.
Qed.

(** X19: [get_data] transposes: from [N] rows of length [T] it makes [T]
    rows of length [N], entry [(j, i)] of the result being entry [(i, j)] of
    the frame, and applying it twice gives the frame back. *)
Theorem get_data_transposes (N T : nat) (data : list (list Q)) :
  is_matrix N T data ->
  (1 <= N)%nat ->
  (1 <= T)%nat ->
  is_matrix T N (get_data data)
  /\ (forall i j, (i < N)%nat -> (j < T)%nat ->
      nth i (nth j (get_data data) []) 0 = nth j (nth i data []) 0)
  /\ get_data (get_data data) = data.
Proof.
  intros Hm HN HT. pose proof (shape1_matrix N T data Hm HN) as Hs.
  destruct Hm as [Hlen Hrows].
  assert (Ht : is_matrix T N (get_data data)).
  { rewrite get_data_columns, Hs. split.
    - rewrite length_map, length_seq. reflexivity.
    - apply Forall_map, Forall_forall. intros i _.
      rewrite column_length. exact Hlen. }
  assert (Hentry : forall i j, (i < N)%nat -> (j < T)%nat ->
            nth i (nth j (get_data data) []) 0 = nth j (nth i data []) 0).
  { intros i j Hi Hj. rewrite get_data_nth by (rewrite Hs; exact Hj).
    apply column_nth. rewrite Hlen. exact Hi. }
  split; [exact Ht|]. split; [exact Hentry|].
  pose proof (shape1_matrix T N (get_data data) Ht HT) as Hs'.
  rewrite (get_data_columns (get_data data)), Hs'.
  apply (nth_ext _ _ [] []).
  - rewrite length_map, length_seq. symmetry. exact Hlen.
  - intros i Hi. rewrite length_map, length_seq in Hi.
    rewrite (nth_indep _ [] (column (get_data data) 0))
      by (rewrite length_map, length_seq; exact Hi).
    rewrite map_nth, seq_nth by exact Hi. simpl plus.
    assert (Hrow : length (nth i data []) = T).
    { rewrite Forall_forall in Hrows. apply Hrows, nth_In.
      rewrite Hlen. exact Hi. }
    apply (nth_ext _ _ 0 0).
    + rewrite column_length. destruct Ht as [Ht1 _]. rewrite Ht1.
      symmetry. exact Hrow.
    + intros j Hj. rewrite column_length in Hj.
      destruct Ht as [Ht1 _]. rewrite Ht1 in Hj.
      rewrite column_nth by (rewrite Ht1; exact Hj).
      apply Hentry; assumption.
Qed.

(** ** The loops that fill an array *)

(** The shape of the loops of [sma], [twap] and [vwap]: compute a value,
    which may raise, and store it at index [t]. *)
Lemma fill_step_returned (g : nat -> jit_result Q) (s : list Q) (t : nat)
    (v : Q) :
  g t = Returned v ->
  (s' <~ Returned s ;; x <~ g t ;; Returned (set_nth s' t x))
  = Returned (set_nth s t v).
Proof. intro H. simpl. rewrite H. reflexivity. Qed.

Lemma set_nth_length (s : list Q) (k : nat) (v : Q) :
  length (set_nth s k v) = length s.
Proof.
  revert k. induction s as [|a s IH]; intros [|k]; simpl; congruence.
Qed.

Lemma set_nth_middle (l1 l2 : list Q) (a v : Q) :
  set_nth (l1 ++ a :: l2) (length l1) v = l1 ++ v :: l2.
Proof.
  induction l1 as [|x l1 IH]; simpl; [reflexivity|]. rewrite IH. reflexivity.
Qed.

Lemma set_nth_at (l1 l2 : list Q) (a v : Q) (j : nat) :
  length l1 = j -> set_nth (l1 ++ a :: l2) j v = l1 ++ v :: l2.
Proof. intros <-. apply set_nth_middle. Qed.

Lemma skipn_cons_nth (s : list Q) (j : nat) :
  (j < length s)%nat -> skipn j s = nth j s 0 :: skipn (S j) s.
Proof.
  revert j. induction s as [|a s IH]; intros [|j] H; simpl in *; try lia.
  - reflexivity.
  - apply IH. lia.
Qed.

(** When every value is computed, the loop fills the array with the values,
    in order. *)
Lemma fill_loop_returned (step : jit_result (list Q) -> nat -> jit_result (list Q))
    (f : nat -> Q) (s0 : list Q) :
  (forall s t, (t < length s0)%nat ->
     step (Returned s) t = Returned (set_nth s t (f t))) ->
  fold_left step (seq 0 (length s0)) (Returned s0)
  = Returned (map f (seq 0 (length s0))).
Proof.
  intro Hstep.
  assert (H : forall j, (j <= length s0)%nat ->
            fold_left step (seq 0 j) (Returned s0)
            = Returned (map f (seq 0 j) ++ skipn j s0)).
  { induction j as [|j IH]; intro Hj.
    - reflexivity.
    - rewrite seq_S, fold_left_app, IH by lia. simpl fold_left. simpl plus.
      rewrite Hstep by lia. f_equal.
      rewrite (skipn_cons_nth s0 j) by lia.
      rewrite (set_nth_at (map f (seq 0 j)))
        by (rewrite length_map, length_seq; reflexivity).
      rewrite map_app, <- app_assoc. reflexivity. }
  rewrite (H (length s0)) by lia.
  rewrite skipn_all, app_nil_r. reflexivity.
Qed.

Lemma fold_raised (step : jit_result (list Q) -> nat -> jit_result (list Q))
    (e : jit_exn) (l : list nat) :
  (forall t, step (Raised e) t = Raised e) ->
  fold_left step l (Raised e) = Raised e.
Proof.
  intro H. induction l as [|t l IH]; simpl; [reflexivity|].
  rewrite H. exact IH.
Qed.

Lemma np_zeros_nonneg (len interval : nat) :
  (interval <= len)%nat ->
  np_zeros (Z.of_nat len - Z.of_nat interval)
  = Returned (repeat 0 (len - interval)).
Proof.
  intro H. unfold np_zeros.
  destruct (Z.ltb_spec (Z.of_nat len - Z.of_nat interval) 0) as [Hlt|_];
    [lia|].
  do 2 f_equal. lia.
Qed.

Lemma np_zeros_negative (len interval : nat) :
  (len < interval)%nat ->
  np_zeros (Z.of_nat len - Z.of_nat interval) = Raised JitValueError.
Proof.
  intro H. unfold np_zeros.
  destruct (Z.ltb_spec (Z.of_nat len - Z.of_nat interval) 0) as [_|Hge];
    [reflexivity | lia].
Qed.

Lemma jit_div_ok (x y : Q) : ~ y == 0 -> jit_div x y = Returned (x / y).
Proof.
  intro H. unfold jit_div. rewrite (Qeq_bool_false _ _ H). reflexivity.
Qed.

Lemma jit_div_zero (x y : Q) :
  y == 0 -> jit_div x y = Raised JitZeroDivisionError.
Proof.
  intro H. unfold jit_div. rewrite (Qeq_eq_bool _ _ H). reflexivity.
Qed.

(** ** The simple moving average *)

Lemma window_mean_step_returned (prices : list Q) (interval : nat)
    (s : list Q) (t : nat) :
  (1 <= interval)%nat ->
  window_mean_step prices interval (Returned s) t
  = Returned (set_nth s t (window_mean prices interval t)).
Proof.
  intro H. unfold window_mean_step, window_mean. simpl jit_bind.
  rewrite jit_div_ok by (apply inject_Z_nonzero; lia). reflexivity.
Qed.

Lemma window_mean_step_raised (prices : list Q) (interval : nat)
    (e : jit_exn) (t : nat) :
  window_mean_step prices interval (Raised e) t = Raised e.
Proof. reflexivity. Qed.

Lemma sma_returned (matrix : list Q) (interval : nat) :
  (1 <= interval)%nat ->
  (interval <= length matrix)%nat ->
  sma matrix interval
  = Returned (map (window_mean matrix interval)
                  (seq 0 (length matrix - interval))).
Proof.
  intros H1 H2. unfold sma. rewrite np_zeros_nonneg by exact H2.
  unfold jit_bind.
  rewrite (fill_loop_returned (window_mean_step matrix interval)
             (window_mean matrix interval)).
  - rewrite repeat_length. reflexivity.
  - intros s t _. apply window_mean_step_returned. exact H1.
Qed.

Lemma sma_zero_interval (matrix : list Q) :
  matrix <> [] -> sma matrix 0 = Raised JitZeroDivisionError.
Proof.
  intro Hne. unfold sma. rewrite np_zeros_nonneg by lia.
  unfold jit_bind. rewrite repeat_length, Nat.sub_0_r.
  destruct matrix as [|a matrix]; [contradiction|].
  simpl length. simpl seq. simpl fold_left.
  apply fold_raised. intro t. reflexivity.
Qed.

Lemma py_slice_length (l : list Q) (t interval : nat) :
  (t + interval <= length l)%nat ->
  length (py_slice l t (t + interval)) = interval.
Proof.
  intro H. unfold py_slice. rewrite length_firstn, length_skipn. lia.
Qed.

Lemma py_slice_app (l : list Q) (x : Q) (t interval : nat) :
  (t + interval <= length l)%nat ->
  py_slice (l ++ [x]) t (t + interval) = py_slice l t (t + interval).
Proof.
  intro H. unfold py_slice.
  rewrite skipn_app, firstn_app, length_skipn.
  replace (t + interval - t - (length l - t))%nat with 0%nat by lia.
  rewrite firstn_O, app_nil_r. reflexivity.
Qed.

Lemma within_firstn (lo hi : Q) (k : nat) (l : list Q) :
  within lo hi l -> within lo hi (firstn k l).
Proof.
  intro H. revert k. induction H as [|a l Ha _ IH]; intros [|k]; simpl;
    try (constructor; fail).
  constructor; [exact Ha | apply IH].
Qed.

Lemma within_skipn (lo hi : Q) (k : nat) (l : list Q) :
  within lo hi l -> within lo hi (skipn k l).
Proof.
  intro H. revert k. induction H as [|a l Ha Hl IH]; intros [|k]; simpl.
  - constructor.
  - constructor.
  - constructor; assumption.
  - apply IH.
Qed.

Lemma np_sum_within (lo hi : Q) (l : list Q) :
  within lo hi l ->
  inject_Z (Z.of_nat (length l)) * lo <= np_sum l
  /\ np_sum l <= inject_Z (Z.of_nat (length l)) * hi.
Proof.
  induction 1 as [|a l [Hlo Hhi] _ [IHlo IHhi]].
  - simpl length. change (inject_Z (Z.of_nat 0)) with 0.
    change (np_sum []) with 0. split; lra.
  - simpl length. rewrite Nat2Z.inj_succ. unfold Z.succ.
    rewrite inject_Z_plus. change (inject_Z 1) with 1.
    rewrite np_sum_cons. split; lra.
Qed.

(** The mean of a window inside the series lies between the bounds of the
    series. *)
Lemma window_mean_within (lo hi : Q) (prices : list Q) (interval t : nat) :
  within lo hi prices ->
  (1 <= interval)%nat ->
  (t + interval <= length prices)%nat ->
  lo <= window_mean prices interval t /\ window_mean prices interval t <= hi.
Proof.
  intros Hw H1 Ht. unfold window_mean.
  assert (Hs : within lo hi (py_slice prices t (t + interval)))
    by (apply within_firstn, within_skipn, Hw).
  destruct (np_sum_within lo hi _ Hs) as [Hlo Hhi].
  rewrite py_slice_length in Hlo, Hhi by exact Ht.
  assert (Hk : 0 < inject_Z (Z.of_nat interval)).
  { change 0 with (inject_Z 0). rewrite <- Zlt_Qlt. lia. }
  split.
  - apply Qle_shift_div_l; [exact Hk | lra].
  - apply Qle_shift_div_r; [exact Hk | lra].
Qed.

Lemma window_means_within (lo hi : Q) (prices : list Q) (interval : nat) :
  within lo hi prices ->
  (1 <= interval)%nat ->
  (interval <= length prices)%nat ->
  within lo hi (map (window_mean prices interval)
                    (seq 0 (length prices - interval))).
Proof.
  intros Hw H1 H2. apply Forall_map, Forall_forall. intros t Ht.
  apply in_seq in Ht. apply window_mean_within; try assumption. lia.
Qed.

(** X20: for a window of [1 <= interval <= len] values, [sma] returns
    [len - interval] averages, the one of index [t] being the mean of
    [matrix[t], ..., matrix[t + interval - 1]]: the in-place loop leaves no
    zero of the initial array behind. *)
Theorem sma_window_means (matrix : list Q) (interval : nat) :
  (1 <= interval)%nat ->
  (interval <= length matrix)%nat ->
  exists s,
    sma matrix interval = Returned s
    /\ length s = (length matrix - interval)%nat
    /\ forall t, (t < length matrix - interval)%nat ->
         nth t s 0
         == np_sum (py_slice matrix t (t + interval))
            / inject_Z (Z.of_nat interval).
Proof.
  intros H1 H2. eexists. split; [apply sma_returned; assumption|]. split.
  - rewrite length_map, length_seq. reflexivity.
  - intros t Ht.
    rewrite (nth_indep _ 0 (window_mean matrix interval 0))
      by (rewrite length_map, length_seq; exact Ht).
    rewrite map_nth, seq_nth by exact Ht. reflexivity.
Qed.

(** X21: the last window is never taken: the last value of the series has
    no influence on what [sma] returns, whatever the window. *)
Theorem sma_ignores_last_value (l : list Q) (a b : Q) (interval : nat) :
  sma (l ++ [a]) interval = sma (l ++ [b]) interval.
Proof.
  destruct (Nat.eq_dec interval 0) as [->|Hne].
  - rewrite !sma_zero_interval by (destruct l; discriminate). reflexivity.
  - destruct (le_lt_dec interval (length l + 1)) as [Hle|Hgt].
    + rewrite !sma_returned by (rewrite ?length_app; simpl; lia).
      rewrite !length_app. simpl length. f_equal.
      apply map_ext_in. intros t Ht. apply in_seq in Ht.
      unfold window_mean. rewrite !py_slice_app by lia. reflexivity.
    + unfold sma. rewrite !length_app. simpl length.
      rewrite !np_zeros_negative by lia. reflexivity.
Qed.

(** X22: the errors of [sma].  A window longer than the series asks
    [np.zeros] for a negative length, a [ValueError]; a window of zero on a
    series that is not empty divides by zero, a [ZeroDivisionError]; a
    window as long as the series gives the empty array. *)
Theorem sma_errors (matrix : list Q) (interval : nat) :
  ((length matrix < interval)%nat ->
   sma matrix interval = Raised JitValueError)
  /\ (interval = 0%nat -> matrix <> [] ->
      sma matrix interval = Raised JitZeroDivisionError)
  /\ (interval = length matrix -> sma matrix interval = Returned []).
Proof.
  split; [|split].
  - intro H. unfold sma. rewrite np_zeros_negative by exact H. reflexivity.
  - intros -> Hne. apply sma_zero_interval. exact Hne.
  - intros ->. unfold sma. rewrite np_zeros_nonneg by lia.
    rewrite Nat.sub_diag. reflexivity.
Qed.

(** X23: averaging keeps the bounds: when all the values of the series lie
    in [[lo, hi]], so do all the values that [sma] returns. *)
Theorem sma_within_bounds (matrix : list Q) (interval : nat) (lo hi : Q) :
  within lo hi matrix ->
  (1 <= interval)%nat ->
  (interval <= length matrix)%nat ->
  exists s, sma matrix interval = Returned s /\ within lo hi s.
Proof.
  intros Hw H1 H2. eexists. split; [apply sma_returned; assumption|].
  apply window_means_within; assumption.
Qed.

(** ** The exponential moving average *)

Lemma ema_from_length (alpha prev : Q) (xs : list Q) :
  length (ema_from alpha prev xs) = length xs.
Proof.
  revert prev. induction xs as [|x xs IH]; intro prev; simpl;
    [reflexivity | rewrite IH; reflexivity].
Qed.

(** The recurrence, read on the finished array. *)
Lemma ema_from_nth (alpha : Q) (rest : list Q) :
  forall (prev m0 : Q) (j : nat),
    (j < length rest)%nat ->
    nth (S j) (prev :: ema_from alpha prev rest) 0
    = alpha * nth (S j) (m0 :: rest) 0
      + (1 - alpha) * nth j (prev :: ema_from alpha prev rest) 0.
Proof.
  induction rest as [|x rest IH]; intros prev m0 j Hj; simpl in Hj; [lia|].
  destruct j as [|j].
  - reflexivity.
  - simpl ema_from.
    change (nth (S (S j)) (prev :: ?e :: ?tl) 0) with (nth (S j) (e :: tl) 0).
    exact (IH (alpha * x + (1 - alpha) * prev) x j (proj2 (Nat.succ_lt_mono _ _) Hj)).
Qed.

Lemma firstn_succ_nth (l : list Q) (j : nat) :
  (j < length l)%nat -> firstn (S j) l = firstn j l ++ [nth j l 0].
Proof.
  revert j. induction l as [|a l IH]; intros [|j] H; simpl in *; try lia.
  - reflexivity.
  - rewrite <- IH by lia. reflexivity.
Qed.

Lemma nth_firstn_app (l tl : list Q) (j k : nat) :
  (j < k)%nat -> (k <= length l)%nat ->
  nth j (firstn k l ++ tl) 0 = nth j l 0.
Proof.
  intros Hj Hk. rewrite app_nth1 by (rewrite length_firstn; lia).
  revert j k Hj Hk. induction l as [|a l IH]; intros [|j] [|k] Hj Hk;
    simpl in *; try lia; try reflexivity.
  apply IH; lia.
Qed.

(** The loop of [ema] builds the recurrence. *)
Lemma ema_returned (first : Q) (rest : list Q) (alpha : Q) :
  ema (first :: rest) alpha
  = Returned (first :: ema_from alpha first rest).
Proof.
  unfold ema, np_zeros.
  destruct (Z.ltb_spec (Z.of_nat (length (first :: rest))) 0) as [Hlt|_];
    [lia|].
  rewrite Nat2Z.id. unfold jit_bind. f_equal.
  set (matrix := first :: rest).
  set (E := first :: ema_from alpha first rest).
  assert (HE : length E = length matrix)
    by (unfold E, matrix; simpl; rewrite ema_from_length; reflexivity).
  assert (Hlen : length matrix = S (length rest)) by reflexivity.
  assert (H : forall j, (j <= length rest)%nat ->
            fold_left (ema_step matrix alpha) (seq 1 j)
                      (set_nth (repeat 0 (length matrix)) 0 first)
            = firstn (S j) E ++ repeat 0 (length rest - j)).
  { induction j as [|j IH]; intro Hj.
    - rewrite Hlen, Nat.sub_0_r. reflexivity.
    - rewrite seq_S, fold_left_app, IH by lia. cbn [fold_left].
      unfold ema_step. change (1 + j)%nat with (S j).
      replace (S j - 1)%nat with j by lia.
      rewrite (nth_firstn_app E _ j (S j)) by lia.
      replace (length rest - j)%nat with (S (length rest - S j)) by lia.
      cbn [repeat].
      rewrite (set_nth_at (firstn (S j) E))
        by (rewrite length_firstn; lia).
      rewrite (firstn_succ_nth E (S j)) by lia.
      rewrite <- app_assoc. f_equal. cbn [app]. f_equal.
      symmetry. exact (ema_from_nth alpha rest first first j Hj). }
  replace (length matrix - 1)%nat with (length rest) by (rewrite Hlen; lia).
  rewrite (H (length rest)) by lia.
  rewrite Nat.sub_diag, app_nil_r.
  rewrite firstn_all2 by (rewrite HE, Hlen; lia). reflexivity.
Qed.

(** X24: on a series that is not empty [ema] returns an array of the same
    length, which starts with the first value of the series and in which
    every later value is [alpha * matrix[t] + (1 - alpha) * e[t - 1]]: the
    loop reads the value it has just written. *)
Theorem ema_recurrence (matrix : list Q) (alpha : Q) :
  matrix <> [] ->
  exists e,
    ema matrix alpha = Returned e
    /\ length e = length matrix
    /\ nth 0 e 0 = nth 0 matrix 0
    /\ forall t, (1 <= t)%nat -> (t < length matrix)%nat ->
         nth t e 0 = alpha * nth t matrix 0 + (1 - alpha) * nth (t - 1) e 0.
Proof.
  intro Hne. destruct matrix as [|first rest]; [contradiction|].
  eexists. split; [apply ema_returned|]. split; [|split].
  - simpl. rewrite ema_from_length. reflexivity.
  - reflexivity.
  - intros t H1 Ht. destruct t as [|j]; [lia|].
    simpl in Ht. replace (S j - 1)%nat with j by lia.
    apply ema_from_nth. lia.
Qed.

Lemma ema_from_within (lo hi alpha : Q) (xs : list Q) :
  0 <= alpha -> alpha <= 1 ->
  within lo hi xs ->
  forall prev, lo <= prev -> prev <= hi ->
    within lo hi (ema_from alpha prev xs).
Proof.
  intros Ha0 Ha1 H. induction H as [|x xs [Hlo Hhi] _ IH];
    intros prev Hp0 Hp1; simpl; constructor.
  - split; nra.
  - apply IH; nra.
Qed.

(** X25: for a smoothing factor [0 <= alpha <= 1] the exponential average
    stays within the bounds of the series. *)
Theorem ema_within_bounds (matrix : list Q) (alpha lo hi : Q) :
  matrix <> [] ->
  0 <= alpha -> alpha <= 1 ->
  within lo hi matrix ->
  exists e, ema matrix alpha = Returned e /\ within lo hi e.
Proof.
  intros Hne Ha0 Ha1 Hw. destruct matrix as [|first rest]; [contradiction|].
  eexists. split; [apply ema_returned|].
  inversion Hw as [|x l [Hlo Hhi] Hrest]; subst.
  constructor; [split; assumption|].
  apply ema_from_within; assumption.
Qed.

Lemma ema_from_one (alpha prev : Q) (xs : list Q) :
  alpha == 1 -> veq (ema_from alpha prev xs) xs.
Proof.
  intro Ha. revert prev. induction xs as [|x xs IH]; intro prev; simpl;
    constructor; [rewrite Ha; ring | apply IH].
Qed.

Lemma ema_from_zero (alpha prev c : Q) (xs : list Q) :
  alpha == 0 -> prev == c ->
  Forall (fun v => v == c) (ema_from alpha prev xs).
Proof.
  intros Ha. revert prev. induction xs as [|x xs IH]; intros prev Hp; simpl;
    constructor.
  - rewrite Ha, Hp. ring.
  - apply IH. rewrite Ha, Hp. ring.
Qed.

(** X26: the two ends of the smoothing factor.  With [alpha = 1] the
    exponential average is the series itself; with [alpha = 0] it repeats
    the first value of the series. *)
Theorem ema_extreme_factors (matrix : list Q) (alpha : Q) :
  matrix <> [] ->
  exists e,
    ema matrix alpha = Returned e
    /\ (alpha == 1 -> veq e matrix)
    /\ (alpha == 0 -> Forall (fun v => v == nth 0 matrix 0) e).
Proof.
  intro Hne. destruct matrix as [|first rest]; [contradiction|].
  eexists. split; [apply ema_returned|]. split; intro Ha.
  - constructor; [reflexivity | apply ema_from_one; exact Ha].
  - constructor; [reflexivity|].
    apply ema_from_zero; [exact Ha | reflexivity].
Qed.

(** ** The time-weighted and volume-weighted average prices *)

Lemma zip_with_length (f : Q -> Q -> Q) (u v : list Q) :
  length u = length v -> length (zip_with f u v) = length u.
Proof.
  revert v. induction u as [|a u IH]; intros [|b v] H; simpl in *;
    try discriminate; [reflexivity|].
  f_equal. apply IH. congruence.
Qed.

Lemma within_sum (lo hi lo' hi' : Q) (u v : list Q) :
  within lo hi u -> within lo' hi' v ->
  within (lo + lo') (hi + hi') (zip_with Qplus u v).
Proof.
  intro Hu. revert v. induction Hu as [|a u [Ha0 Ha1] _ IH];
    intros v Hv; [constructor|].
  destruct Hv as [|b v [Hb0 Hb1] Hv]; simpl; constructor.
  - split; lra.
  - apply IH. exact Hv.
Qed.

Lemma within_scaled (lo hi c : Q) (u : list Q) :
  0 < c ->
  within (c * lo) (c * hi) u -> within lo hi (map (fun x => x / c) u).
Proof.
  intros Hc Hu. apply Forall_map. eapply Forall_impl; [|exact Hu].
  intros x [H0 H1]. cbv beta. split.
  - apply Qle_shift_div_l; [exact Hc | lra].
  - apply Qle_shift_div_r; [exact Hc | lra].
Qed.

Lemma within_ext (lo hi lo' hi' : Q) (u : list Q) :
  lo' == lo -> hi' == hi -> within lo hi u -> within lo' hi' u.
Proof.
  intros Hlo Hhi Hu. eapply Forall_impl; [|exact Hu].
  intros x [H0 H1]. cbv beta. rewrite Hlo, Hhi. split; assumption.
Qed.

(** X27: [twap] averages the four prices of each day and then the days of
    each window: with four series of one length [len] whose values lie in
    [[lo, hi]] and a window [1 <= interval <= len], it returns
    [len - interval] values, all of them in [[lo, hi]]. *)
Theorem twap_within_bounds (high low open close : list Q) (interval : nat)
    (lo hi : Q) :
  length low = length high ->
  length open = length high ->
  length close = length high ->
  within lo hi high -> within lo hi low ->
  within lo hi open -> within lo hi close ->
  (1 <= interval)%nat ->
  (interval <= length high)%nat ->
  exists p,
    twap high low open close interval = Returned p
    /\ length p = (length high - interval)%nat
    /\ within lo hi p.
Proof.
  intros Hl Ho Hc Wh Wl Wo Wc H1 H2.
  set (prices :=
         map (fun x => x / 4)
             (zip_with Qplus (zip_with Qplus (zip_with Qplus high low) open)
                       close)).
  assert (Hlen : length prices = length high).
  { unfold prices. rewrite length_map.
    assert (L1 : length (zip_with Qplus high low) = length high)
      by (apply zip_with_length; congruence).
    assert (L2 : length (zip_with Qplus (zip_with Qplus high low) open)
                 = length high)
      by (rewrite zip_with_length; congruence).
    rewrite zip_with_length; congruence. }
  assert (Hw : within lo hi prices).
  { unfold prices. apply within_scaled; [reflexivity|].
    apply (within_ext (lo + lo + lo + lo) (hi + hi + hi + hi));
      [ring | ring |].
    repeat apply within_sum; assumption. }
  change (twap high low open close interval) with (sma prices interval).
  rewrite sma_returned by (rewrite ?Hlen; assumption).
  eexists. split; [reflexivity|]. split.
  - rewrite length_map, length_seq, Hlen. reflexivity.
  - apply window_means_within; rewrite ?Hlen; assumption.
Qed.

(** The weighted sum of prices in [[lo, hi]] with weights that are not
    negative lies between [lo] and [hi] times the sum of the weights. *)
Lemma weighted_sum_within (lo hi : Q) (p v : list Q) :
  within lo hi p ->
  Forall (fun x => 0 <= x) v ->
  lo * np_sum (zip_with (fun _ y => y) p v)
  <= np_sum (zip_with Qmult p v)
  /\ np_sum (zip_with Qmult p v)
     <= hi * np_sum (zip_with (fun _ y => y) p v).
Proof.
  intro Hp. revert v. induction Hp as [|a p [Ha0 Ha1] _ IH]; intros v Hv.
  - simpl. change (np_sum []) with 0. split; lra.
  - destruct Hv as [|b v Hb Hv].
    + simpl. change (np_sum []) with 0. split; lra.
    + simpl zip_with. rewrite !np_sum_cons.
      destruct (IH v Hv) as [IH0 IH1]. split; nra.
Qed.

Lemma zip_with_snd (p v : list Q) :
  length p = length v -> zip_with (fun _ y => y) p v = v.
Proof.
  revert v. induction p as [|a p IH]; intros [|b v] H; simpl in *;
    try discriminate; [reflexivity|].
  f_equal. apply IH. congruence.
Qed.

Lemma np_sum_pos (v : list Q) :
  v <> [] -> Forall (fun x => 0 < x) v -> 0 < np_sum v.
Proof.
  intros Hne H. induction H as [|a v Ha Hv IH]; [contradiction|].
  rewrite np_sum_cons. destruct v as [|b v].
  - change (np_sum []) with 0. lra.
  - assert (0 < np_sum (b :: v)) by (apply IH; discriminate). lra.
Qed.

Lemma Forall_py_slice (P : Q -> Prop) (l : list Q) (t k : nat) :
  Forall P l -> Forall P (py_slice l t k).
Proof.
  intro H. unfold py_slice.
  assert (Hs : Forall P (skipn t l)).
  { clear k. revert t. induction H as [|a l Ha Hl IH]; intros [|t]; simpl.
    - constructor.
    - constructor.
    - constructor; assumption.
    - apply IH. }
  revert Hs. generalize (skipn t l) (k - t)%nat. intros l' j Hl'.
  revert j. induction Hl' as [|a l' Ha _ IH]; intros [|j]; simpl;
    try (constructor; fail).
  constructor; [exact Ha | apply IH].
Qed.

(** The value that [vwap] stores at index [t]. *)
Lemma vwap_step_returned (prices volumes : list Q) (interval : nat)
    (s : list Q) (t : nat) :
  ~ np_sum (py_slice volumes t (t + interval)) == 0 ->
  vwap_step prices volumes interval (Returned s) t
  = Returned
      (set_nth s t
         (np_sum (zip_with Qmult (py_slice prices t (t + interval))
                                 (py_slice volumes t (t + interval)))
          / np_sum (py_slice volumes t (t + interval)))).
Proof.
  intro H. unfold vwap_step. simpl jit_bind. rewrite jit_div_ok by exact H.
  reflexivity.
Qed.

Lemma typical_price_within (high low close : list Q) (lo hi : Q) :
  within lo hi high -> within lo hi low -> within lo hi close ->
  within lo hi
    (map (fun x => x / 3) (zip_with Qplus (zip_with Qplus high low) close)).
Proof.
  intros Wh Wl Wc. apply within_scaled; [reflexivity|].
  apply (within_ext (lo + lo + lo) (hi + hi + hi)); [ring | ring |].
  repeat apply within_sum; assumption.
Qed.

Lemma typical_price_length (high low close : list Q) :
  length low = length high -> length close = length high ->
  length (map (fun x => x / 3)
              (zip_with Qplus (zip_with Qplus high low) close))
  = length high.
Proof.
  intros Hl Hc. rewrite length_map.
  assert (L1 : length (zip_with Qplus high low) = length high)
    by (apply zip_with_length; congruence).
  rewrite zip_with_length; congruence.
Qed.

(** X28: with volumes that are all positive, [vwap] returns
    [len - interval] prices, and each of them lies between the bounds of the
    high, low and close prices: it is an average of the typical prices of
    the window, weighted by the volumes. *)
Theorem vwap_within_bounds (high low close volumes : list Q) (interval : nat)
    (lo hi : Q) :
  length low = length high ->
  length close = length high ->
  length volumes = length high ->
  within lo hi high -> within lo hi low -> within lo hi close ->
  Forall (fun v => 0 < v) volumes ->
  (1 <= interval)%nat ->
  (interval <= length high)%nat ->
  exists p,
    vwap high low close volumes interval = Returned p
    /\ length p = (length high - interval)%nat
    /\ within lo hi p.
Proof.
  intros Hl Hc Hv Wh Wl Wc Hpos H1 H2. unfold vwap. cbv zeta.
  pose proof (typical_price_within high low close lo hi Wh Wl Wc) as Hw.
  pose proof (typical_price_length high low close Hl Hc) as Hlen.
  set (prices := map (fun x => x / 3) _) in *.
  rewrite Hlen, np_zeros_nonneg by exact H2. unfold jit_bind.
  set (f := fun t =>
         np_sum (zip_with Qmult (py_slice prices t (t + interval))
                                (py_slice volumes t (t + interval)))
         / np_sum (py_slice volumes t (t + interval))).
  assert (Hvol : forall t, (t < length high - interval)%nat ->
            0 < np_sum (py_slice volumes t (t + interval))).
  { intros t Ht. apply np_sum_pos.
    - intro E. apply (f_equal (@length Q)) in E.
      rewrite py_slice_length in E by lia. simpl in E. lia.
    - apply Forall_py_slice. exact Hpos. }
  rewrite (fill_loop_returned (vwap_step prices volumes interval) f).
  - rewrite repeat_length. eexists. split; [reflexivity|]. split.
    + rewrite length_map, length_seq. reflexivity.
    + apply Forall_map, Forall_forall. intros t Ht. apply in_seq in Ht.
      assert (Ht' : (t < length high - interval)%nat) by lia.
      specialize (Hvol t Ht'). unfold f.
      destruct (weighted_sum_within lo hi
                  (py_slice prices t (t + interval))
                  (py_slice volumes t (t + interval))) as [H0 H3].
      * apply Forall_py_slice. exact Hw.
      * apply Forall_py_slice. eapply Forall_impl; [|exact Hpos].
        intros x Hx. apply Qlt_le_weak. exact Hx.
      * rewrite zip_with_snd in H0, H3
          by (rewrite !py_slice_length; [reflexivity | lia | lia]).
        split.
        -- apply Qle_shift_div_l; [exact Hvol | exact H0].
        -- apply Qle_shift_div_r; [exact Hvol | exact H3].
  - intros s t Ht. rewrite repeat_length in Ht.
    apply vwap_step_returned. specialize (Hvol t Ht). lra.
Qed.

(** The loop of [vwap] stops at the first window without volume. *)
Lemma vwap_loop_outcome (prices volumes : list Q) (interval : nat)
    (s0 : list Q) (k : nat) :
  let r := fold_left (vwap_step prices volumes interval) (seq 0 k)
                     (Returned s0) in
  (r = Raised JitZeroDivisionError \/ exists s, r = Returned s)
  /\ ((exists t, (t < k)%nat
                 /\ np_sum (py_slice volumes t (t + interval)) == 0) ->
      r = Raised JitZeroDivisionError).
Proof.
  induction k as [|k [IHr IHz]].
  - simpl. split; [right; eexists; reflexivity|].
    intros (t & Ht & _). lia.
  - rewrite seq_S, fold_left_app. cbn [fold_left]. change (0 + k)%nat with k.
    cbv zeta in IHr, IHz.
    destruct IHr as [Er|(s & Er)]; rewrite Er in *.
    + split; [left; reflexivity | intros _; reflexivity].
    + destruct (Qeq_dec (np_sum (py_slice volumes k (k + interval))) 0)
        as [Hz|Hnz].
      * assert (E : vwap_step prices volumes interval (Returned s) k
                    = Raised JitZeroDivisionError).
        { unfold vwap_step. simpl jit_bind.
          rewrite jit_div_zero by exact Hz. reflexivity. }
        rewrite E. split; [left; reflexivity | intros _; reflexivity].
      * rewrite vwap_step_returned by exact Hnz.
        split; [right; eexists; reflexivity|].
        intros (t & Ht & Hz).
        destruct (Nat.eq_dec t k) as [->|Hne]; [contradiction|].
        assert (Habs : Returned s = Raised JitZeroDivisionError).
        { apply IHz. exists t. split; [lia | exact Hz]. }
        discriminate Habs.
Qed.

(** X29: a window without traded volume stops [vwap]: when the volumes of
    some window sum to zero, the division by the volume of the window raises
    [ZeroDivisionError] and no price is returned. *)
Theorem vwap_zero_volume_window (high low close volumes : list Q)
    (interval : nat) :
  length low = length high ->
  length close = length high ->
  length volumes = length high ->
  (interval <= length high)%nat ->
  (exists t, (t < length high - interval)%nat
             /\ np_sum (py_slice volumes t (t + interval)) == 0) ->
  vwap high low close volumes interval = Raised JitZeroDivisionError.
Proof.
  intros Hl Hc _ H2 Hz. unfold vwap. cbv zeta.
  rewrite (typical_price_length high low close Hl Hc).
  rewrite np_zeros_nonneg by exact H2. unfold jit_bind.
  rewrite repeat_length.
  apply (vwap_loop_outcome _ volumes interval _ (length high - interval)).
  exact Hz.
Qed.

(** ** Witnesses of the further properties *)

(** Closed side conditions: equalities and comparisons of numerals. *)
Ltac closed_condition :=
  first [ reflexivity
        | discriminate
        | vm_compute; first [ reflexivity | discriminate ]
        | repeat constructor ].

(** A closed series within closed bounds. *)
Ltac closed_within :=
  repeat (apply Forall_cons; [split; vm_compute; discriminate |]);
  apply Forall_nil.

Ltac closed_positive :=
  repeat (apply Forall_cons; [vm_compute; reflexivity |]);
  apply Forall_nil.

Lemma calculate_yields_selects_lowest_minimiser_witness :
  exists c_ytm c_ytc ytw,
    calculate_yields whole_power scenario_bond
    = Ok (inject_Z (num_coupon_periods scenario_bond) * c_ytm, c_ytc, ytw)
    /\ (forall y, In y x1 -> y < c_ytm ->
        Qabs (ytm_residual scenario_bond c_ytm)
        < Qabs (ytm_residual scenario_bond y))
    /\ (forall y, In y x1 -> y < c_ytc ->
        Qabs (ytc_formula whole_power scenario_bond c_ytc)
        < Qabs (ytc_formula whole_power scenario_bond y)).
Proof.
  apply (calculate_yields_selects_lowest_minimiser whole_power scenario_bond).
  vm_compute. discriminate.
Defined.

Lemma yields_depend_on_their_own_terms_witness :
  exists ytm1 ytc1 ytw1 ytm2 ytc2 ytw2,
    calculate_yields whole_power (Bond_init 95 5 100 100 5 10 2)
    = Ok (ytm1, ytc1, ytw1)
    /\ calculate_yields whole_power (Bond_init 95 5 105 100 7 10 2)
       = Ok (ytm2, ytc2, ytw2)
    /\ ((10 : Q) = 10 -> 2%Z = 2%Z -> ytm1 = ytm2)
    /\ ((100 : Q) = 105 -> (5 : Q) = 7 -> ytc1 = ytc2).
Proof.
  apply (yields_depend_on_their_own_terms whole_power 95 5 100
           100 5 10 2 105 7 10 2); discriminate.
Defined.

Lemma valid_bond_analytics_ordering_witness :
  exists ytm ytc ytw macaulay_duration modified_duration,
    calculate_bond_analytics whole_power scenario_bond
    = Ok (ytm, ytc, ytw, macaulay_duration, modified_duration)
    /\ 0 < modified_duration
    /\ modified_duration < macaulay_duration
    /\ (macaulay_duration / (1 + (9999 # 10000)) <= modified_duration
        /\ modified_duration <= macaulay_duration / (1 + (1 # 10000)))
    /\ 0 < ytw /\ ytw <= ytm /\ ytw <= ytc.
Proof.
  exact (valid_bond_analytics_ordering whole_power scenario_bond
           scenario_bond_valid).
Defined.

Lemma short_bond_raises_unbound_local_witness :
  calculate_bond_analytics whole_power (Bond_init 95 5 100 100 0 (1 # 4) 2)
  = Raise UnboundLocalError.
Proof.
  apply (short_bond_raises_unbound_local whole_power 95 5 100 100 0 (1 # 4) 2);
    closed_condition.
Defined.

Lemma macaulay_duration_closed_form_witness :
  exists macaulay_duration modified_duration,
    calculate_durations scenario_bond (283 # 5000)
    = Ok (macaulay_duration, modified_duration)
    /\ macaulay_duration
       == face_value scenario_bond / price scenario_bond
          * discount_sum (coupon scenario_bond * (1 # 100)) (n scenario_bond).
Proof.
  apply (macaulay_duration_closed_form scenario_bond (283 # 5000));
    closed_condition.
Defined.

Lemma zero_coupon_macaulay_duration_witness :
  exists macaulay_duration modified_duration,
    calculate_durations (Bond_init 60 0 100 100 5 10 2) (283 # 5000)
    = Ok (macaulay_duration, modified_duration)
    /\ macaulay_duration
       == inject_Z (n (Bond_init 60 0 100 100 5 10 2))
          * face_value (Bond_init 60 0 100 100 5 10 2)
          / price (Bond_init 60 0 100 100 5 10 2).
Proof.
  apply (zero_coupon_macaulay_duration (Bond_init 60 0 100 100 5 10 2)
           (283 # 5000)); closed_condition.
Defined.

Lemma portfolio_volatility_quadratic_witness :
  portfolio_volatility scenario_returns (vscale 3 scenario_weights)
  == 3 * 3 * portfolio_volatility scenario_returns scenario_weights.
Proof.
  apply (portfolio_volatility_quadratic 2 4 scenario_returns scenario_weights
           3 scenario_returns_matrix).
  repeat constructor.
Defined.

Lemma portfolio_volatility_zero_iff_constant_witness :
  0 <= portfolio_volatility scenario_returns scenario_weights
  /\ (portfolio_volatility scenario_returns scenario_weights == 0
      <-> Forall
            (fun x =>
               x == np_mean (portfolio_returns scenario_returns
                                               scenario_weights))
            (portfolio_returns scenario_returns scenario_weights)).
Proof.
  apply (portfolio_volatility_zero_iff_constant 2 4 scenario_returns
           scenario_weights scenario_returns_matrix); repeat constructor.
Defined.

Lemma portfolio_volatility_shift_invariant_witness :
  portfolio_volatility (shift_rows [1 # 100; 2 # 100] scenario_returns)
                       scenario_weights
  == portfolio_volatility scenario_returns scenario_weights.
Proof.
  apply (portfolio_volatility_shift_invariant 2 4 scenario_returns
           scenario_weights [1 # 100; 2 # 100] scenario_returns_matrix).
  - reflexivity.
  - repeat constructor.
Defined.

Lemma portfolio_returns_linear_witness :
  length (portfolio_returns scenario_returns scenario_weights) = 4%nat
  /\ veq (portfolio_returns scenario_returns
            (vadd (vscale 2 scenario_weights) [1; 0]))
         (vadd (vscale 2 (portfolio_returns scenario_returns scenario_weights))
               (portfolio_returns scenario_returns [1; 0])).
Proof.
  apply (portfolio_returns_linear 2 4 scenario_returns scenario_weights
           [1; 0] 2 scenario_returns_matrix).
  - reflexivity.
  - reflexivity.
  - repeat constructor.
Defined.

Lemma risk_metrics_mean_is_weighted_mean_witness :
  exists r,
    risk_metrics heron_sqrt (fun _ => 1) (fun _ => 1) (fun _ _ _ => 1)
                 (fun _ _ => 1) (fun _ _ => 1) (fun _ _ => (1, 0))
                 scenario_returns scenario_weights (-9 # 100) (5 # 100) 5
    = Ok r
    /\ rm_mu r == dot1 scenario_weights (map np_mean scenario_returns)
    /\ rm_var r = portfolio_volatility scenario_returns scenario_weights.
Proof.
  apply (risk_metrics_mean_is_weighted_mean heron_sqrt (fun _ => 1)
           (fun _ => 1) (fun _ _ _ => 1) (fun _ _ => 1) (fun _ _ => 1)
           (fun _ _ => (1, 0)) 2 4 scenario_returns scenario_weights
           (-9 # 100) (5 # 100) 5 scenario_returns_matrix).
  repeat constructor.
Defined.

Lemma risk_metrics_zero_level_witness :
  exists r,
    risk_metrics heron_sqrt (fun _ => 1) (fun _ => 1) (fun _ _ _ => 1)
                 (fun _ _ => 1) (fun _ _ => 1) (fun _ _ => (1, 0))
                 scenario_returns scenario_weights (-9 # 100) 0 5
    = Ok r
    /\ is_finite (rm_es r) = false
    /\ is_finite (rm_t_dist_es r) = false.
Proof.
  apply (risk_metrics_zero_level heron_sqrt (fun _ => 1)
           (fun _ => 1) (fun _ _ _ => 1) (fun _ _ => 1) (fun _ _ => 1)
           (fun _ _ => (1, 0)) scenario_returns scenario_weights
           (-9 # 100) 0 5).
  reflexivity.
Defined.

Lemma tracking_error_of_constant_spread_witness :
  tracking_error heron_sqrt
    (map (fun m => m + (1 # 100)) [1 # 100; -2 # 100; 3 # 100])
    [1 # 100; -2 # 100; 3 # 100]
  == 0.
Proof.
  exact (tracking_error_of_constant_spread heron_sqrt heron_sqrt_zero
           [1 # 100; -2 # 100; 3 # 100] (1 # 100)).
Defined.

Lemma historical_var_extremes_witness :
  exists h_var,
    historical_var [15 # 1000; -5 # 1000; 1 # 100; 1 # 100] (1 # 100)
    = Ok h_var
    /\ (h_var == 0
        <-> Forall (fun r => (1 # 100) <= r)
                   [15 # 1000; -5 # 1000; 1 # 100; 1 # 100])
    /\ (h_var == 1
        <-> Forall (fun r => r < (1 # 100))
                   [15 # 1000; -5 # 1000; 1 # 100; 1 # 100]).
Proof.
  apply (historical_var_extremes
           [15 # 1000; -5 # 1000; 1 # 100; 1 # 100] (1 # 100)).
  discriminate.
Defined.

Lemma get_data_transposes_witness :
  is_matrix 4 2 (get_data scenario_returns)
  /\ (forall i j, (i < 2)%nat -> (j < 4)%nat ->
      nth i (nth j (get_data scenario_returns) []) 0
      = nth j (nth i scenario_returns []) 0)
  /\ get_data (get_data scenario_returns) = scenario_returns.
Proof.
  apply (get_data_transposes 2 4 scenario_returns scenario_returns_matrix);
    repeat constructor.
Defined.

Lemma sma_window_means_witness :
  exists s,
    sma [1; 2; 3; 4; 5] 2 = Returned s
    /\ length s = (length [1; 2; 3; 4; 5] - 2)%nat
    /\ forall t, (t < length [1; 2; 3; 4; 5] - 2)%nat ->
         nth t s 0
         == np_sum (py_slice [1; 2; 3; 4; 5] t (t + 2))
            / inject_Z (Z.of_nat 2).
Proof.
  apply (sma_window_means [1; 2; 3; 4; 5] 2); repeat constructor.
Defined.

Lemma sma_within_bounds_witness :
  exists s, sma [1; 2; 3; 4; 5] 2 = Returned s /\ within 1 5 s.
Proof.
  apply (sma_within_bounds [1; 2; 3; 4; 5] 2 1 5).
  - closed_within.
  - repeat constructor.
  - repeat constructor.
Defined.

Lemma ema_recurrence_witness :
  exists e,
    ema [1; 2; 3; 4; 5] (19 # 100) = Returned e
    /\ length e = length [1; 2; 3; 4; 5]
    /\ nth 0 e 0 = nth 0 [1; 2; 3; 4; 5] 0
    /\ forall t, (1 <= t)%nat -> (t < length [1; 2; 3; 4; 5])%nat ->
         nth t e 0
         = (19 # 100) * nth t [1; 2; 3; 4; 5] 0
           + (1 - (19 # 100)) * nth (t - 1) e 0.
Proof.
  apply (ema_recurrence [1; 2; 3; 4; 5] (19 # 100)). discriminate.
Defined.

Lemma ema_within_bounds_witness :
  exists e, ema [1; 2; 3; 4; 5] (19 # 100) = Returned e /\ within 1 5 e.
Proof.
  apply (ema_within_bounds [1; 2; 3; 4; 5] (19 # 100) 1 5).
  - discriminate.
  - vm_compute. discriminate.
  - vm_compute. discriminate.
  - closed_within.
Defined.

Lemma ema_extreme_factors_witness :
  exists e,
    ema [1; 2; 3; 4; 5] 1 = Returned e
    /\ (1 == 1 -> veq e [1; 2; 3; 4; 5])
    /\ (1 == 0 -> Forall (fun v => v == nth 0 [1; 2; 3; 4; 5] 0) e).
Proof.
  apply (ema_extreme_factors [1; 2; 3; 4; 5] 1). discriminate.
Defined.

Lemma twap_within_bounds_witness :
  exists p,
    twap [3; 4; 5] [1; 2; 3] [2; 3; 4] [2; 4; 4] 2 = Returned p
    /\ length p = (length [3; 4; 5] - 2)%nat
    /\ within 1 5 p.
Proof.
  apply (twap_within_bounds [3; 4; 5] [1; 2; 3] [2; 3; 4] [2; 4; 4] 2 1 5);
    try reflexivity; try closed_within; repeat constructor.
Defined.

Lemma vwap_within_bounds_witness :
  exists p,
    vwap [3; 4; 5] [1; 2; 3] [2; 4; 4] [100; 200; 50] 2 = Returned p
    /\ length p = (length [3; 4; 5] - 2)%nat
    /\ within 1 5 p.
Proof.
  apply (vwap_within_bounds [3; 4; 5] [1; 2; 3] [2; 4; 4] [100; 200; 50]
           2 1 5);
    try reflexivity; try closed_within; try closed_positive;
    repeat constructor.
Defined.

Lemma vwap_zero_volume_window_witness :
  vwap [3; 4; 5] [1; 2; 3] [2; 4; 4] [0; 0; 50] 2
  = Raised JitZeroDivisionError.
Proof.
  apply (vwap_zero_volume_window [3; 4; 5] [1; 2; 3] [2; 4; 4] [0; 0; 50] 2).
  - reflexivity.
  - reflexivity.
  - reflexivity.
  - repeat constructor.
  - exists 0%nat. split; [repeat constructor | reflexivity].
Defined.
